(** * Renaissance-api: settlement state machine and leaderboard statistics

    A shallow embedding of
      - [backend/src/blockchain/settlement.service.ts]
        ([SettlementService.settleBet], [SettlementService.reconcile]),
      - [backend/src/blockchain/soroban.service.ts]
        ([SorobanService.invokeContract]),
    together with the TypeORM repository and the Stellar RPC server they
    talk to, and of the leaderboard update rules described in
    [LEADERBOARD_IMPLEMENTATION.md].

    Asynchronous methods are modelled in a state-and-exception monad over a
    [World] that holds the settlement table, the state of the Soroban
    service, the clock, the outcomes of the awaited external calls, and a
    trace of the calls that crossed a service boundary. *)

From Stdlib Require Import ZArith NArith String List Lia DecimalString.
From stdpp Require Import base option list gmap strings.

Local Open Scope string_scope.
Local Open Scope N_scope.
Local Open Scope list_scope.

(** ** The settlement entity *)

(** Modelled from the spec: the enum [SettlementStatus] of
    [entities/settlement.entity.ts], which is imported by the services but is
    not among the sources; the spec's data model gives its three values. *)
Inductive SettlementStatus := PENDING | CONFIRMED | FAILED.

#[global] Instance SettlementStatus_eq_dec : EqDecision SettlementStatus.
Proof. solve_decision. Defined.

(** Modelled from the spec: the entity [Settlement] of
    [entities/settlement.entity.ts], with the columns of the spec's
    SettlementRecord, which are also the ones the two services read or
    write.  [entityId] is the column [id] (the name [id] is taken by the
    identity function); the key is generated by the store, and is [None] on
    an entity that was created but not saved yet.  [amount] is a JavaScript
    number; the embedding covers the integral amounts. *)
Record Settlement := mkSettlement {
  entityId : option N;
  referenceId : string;
  betId : string;
  outcome : string;
  amount : Z;
  status : SettlementStatus;
  txHash : option string
}.

Definition set_entityId (i : option N) (s : Settlement) : Settlement :=
  mkSettlement i (referenceId s) (betId s) (outcome s) (amount s)
               (status s) (txHash s).

Definition set_status (st : SettlementStatus) (s : Settlement) : Settlement :=
  mkSettlement (entityId s) (referenceId s) (betId s) (outcome s) (amount s)
               st (txHash s).

Definition set_txHash (h : option string) (s : Settlement) : Settlement :=
  mkSettlement (entityId s) (referenceId s) (betId s) (outcome s) (amount s)
               (status s) h.

(** JavaScript truthiness of [settlement.txHash]: [null], [undefined] and the
    empty string are falsy. *)
Definition truthy (h : option string) : bool :=
  match h with
  | None => false
  | Some EmptyString => false
  | Some (String _ _) => true
  end.

(** ** Errors, calls and log lines *)

Inductive Error :=
  | StoreError                (* a repository promise rejected *)
  | RpcError                  (* the RPC server promise rejected *)
  | TypeError (msg : string). (* property access on [undefined] *)

(** Calls that leave the calling service: repository operations, the
    invocation of the Soroban service, and the RPC methods of
    [rpc.Server]. *)
Inductive Call :=
  | RepoFindOne (ref : string)
  | RepoFind (st : SettlementStatus)
  | RepoSave (entity : Settlement)
  | SorobanInvoke (functionName : string) (args : list string)
  | RpcGetAccount (publicKey : string)
  | RpcPrepareTransaction
  | RpcSendTransaction.

Inductive LogLevel := LOG | WARN | ERROR.

Record LogLine := mkLogLine { level : LogLevel; message : string }.

(** ** The Soroban service object *)

(** The private fields of [SorobanService].  [initializeClient] returns
    early when the configuration is incomplete, which leaves [server] and
    [adminKeypair] undefined; a key pair is represented by its public key. *)
Record SorobanService := mkSoroban {
  server : option string;
  networkPassphrase : string;
  contractId : string;
  adminKeypair : option string
}.

(** ** The world *)

Record World := mkWorld {
  table : gmap N Settlement;      (* settlement rows by primary key *)
  storeFails : nat -> bool;        (* does the n-th repository call reject? *)
  storeSeq : nat;                  (* repository calls made so far *)
  soroban : SorobanService;
  rpcFails : nat -> bool;          (* does the n-th RPC call reject? *)
  rpcSeq : nat;                    (* RPC calls made so far *)
  now : N;                         (* Date.now(), in milliseconds *)
  calls : list Call;               (* oldest first *)
  logs : list LogLine              (* oldest first *)
}.

Definition set_table (t : gmap N Settlement) (w : World) : World :=
  mkWorld t (storeFails w) (storeSeq w) (soroban w) (rpcFails w) (rpcSeq w)
          (now w) (calls w) (logs w).

Definition tick_store (c : Call) (w : World) : World :=
  mkWorld (table w) (storeFails w) (S (storeSeq w)) (soroban w) (rpcFails w)
          (rpcSeq w) (now w) (calls w ++ [c]) (logs w).

Definition tick_rpc (c : Call) (w : World) : World :=
  mkWorld (table w) (storeFails w) (storeSeq w) (soroban w) (rpcFails w)
          (S (rpcSeq w)) (now w) (calls w ++ [c]) (logs w).

Definition record_call (c : Call) (w : World) : World :=
  mkWorld (table w) (storeFails w) (storeSeq w) (soroban w) (rpcFails w)
          (rpcSeq w) (now w) (calls w ++ [c]) (logs w).

Definition record_log (l : LogLine) (w : World) : World :=
  mkWorld (table w) (storeFails w) (storeSeq w) (soroban w) (rpcFails w)
          (rpcSeq w) (now w) (calls w) (logs w ++ [l]).

(** ** The monad of asynchronous methods *)

Inductive Result (A : Type) :=
  | Ok (a : A)
  | Throw (e : Error).
Arguments Ok {A} a.
Arguments Throw {A} e.

Definition M (A : Type) : Type := World -> Result A * World.

Definition ret {A} (a : A) : M A := fun w => (Ok a, w).

Definition throw {A} (e : Error) : M A := fun w => (Throw e, w).

Definition bind {A B} (m : M A) (k : A -> M B) : M B :=
  fun w =>
    match m w with
    | (Ok a, w') => k a w'
    | (Throw e, w') => (Throw e, w')
    end.

(** [attempt m] runs [m] and hands its completion, normal or abrupt, to the
    continuation: the building block of [try { ... } catch (e) { ... }]. *)
Definition attempt {A} (m : M A) : M (Result A) :=
  fun w => let (r, w') := m w in (Ok r, w').

Declare Scope async_scope.
Delimit Scope async_scope with async.
Notation "x <~ m ;; k" := (bind m (fun x => k))
  (at level 100, m at next level, right associativity) : async_scope.
Notation "m ;;; k" := (bind m (fun _ => k))
  (at level 100, right associativity) : async_scope.
Local Open Scope async_scope.

Definition tryCatch {A} (body : M A) (handler : Error -> M A) : M A :=
  r <~ attempt body ;;
  match r with
  | Ok a => ret a
  | Throw e => handler e
  end.

(** ** Logger *)

Definition logger (lv : LogLevel) (msg : string) : M unit :=
  fun w => (Ok tt, record_log (mkLogLine lv msg) w).

(** Decimal rendering of numbers inside template literals and of
    [amount.toString()]: the digits JavaScript prints for the integers that
    a number holds exactly. *)
Definition show_N (n : N) : string := NilZero.string_of_uint (N.to_uint n).
Definition show_Z (z : Z) : string := NilZero.string_of_int (Z.to_int z).
Definition show_id (i : option N) : string :=
  match i with
  | Some n => show_N n
  | None => "undefined"
  end.
Definition show_hash (h : option string) : string :=
  match h with
  | Some s => s
  | None => "undefined"
  end.

(** ** The TypeORM repository of [Settlement] *)

Module Repository.

(** Every repository method is awaited and may reject. *)
Definition roundTrip (c : Call) : M unit :=
  fun w =>
    if storeFails w (storeSeq w)
    then (Throw StoreError, tick_store c w)
    else (Ok tt, tick_store c w).

(** The rows as entities: a row read back carries its primary key. *)
Definition rows (t : gmap N Settlement) : list Settlement :=
  (fun kr : N * Settlement => set_entityId (Some kr.1) kr.2)
    <$> map_to_list t.

Definition hasReference (ref : string) (s : Settlement) : bool :=
  String.eqb (referenceId s) ref.

Definition lookupReference (ref : string) (t : gmap N Settlement)
  : option Settlement :=
  List.find (hasReference ref) (rows t).

(** [findOne({ where: { referenceId } })]: a matching row, or [null]. *)
Definition findOne (ref : string) : M (option Settlement) :=
  roundTrip (RepoFindOne ref) ;;;
  fun w => (Ok (lookupReference ref (table w)), w).

Definition withStatus (st : SettlementStatus) (t : gmap N Settlement)
  : list Settlement :=
  filter (fun s => status s = st) (rows t).

(** [find({ where: { status } })]. *)
Definition find (st : SettlementStatus) : M (list Settlement) :=
  roundTrip (RepoFind st) ;;;
  fun w => (Ok (withStatus st (table w)), w).

(** [create(dto)]: builds an entity in memory, touches no row. *)
Definition create (ref bet out : string) (amt : Z) (st : SettlementStatus)
  : Settlement :=
  mkSettlement None ref bet out amt st None.

(** The effect of a successful [save] on the table, and the entity as it
    is afterwards: an entity without a primary key is inserted under a
    key that no row uses and receives that key, an entity with a primary
    key replaces the row of that key.  Whether the store accepts a write,
    a second row for a reference included, is the store's answer
    ([storeFails]): a constraint of the table that the write violates shows
    as a rejected [save]. *)
Definition persist (e : Settlement) (t : gmap N Settlement)
  : Settlement * gmap N Settlement :=
  match entityId e with
  | Some i => (e, <[i := e]> t)
  | None =>
      let i := fresh (dom t) in
      let e' := set_entityId (Some i) e in
      (e', <[i := e']> t)
  end.

(** [save(entity)].  TypeORM writes the generated key into the entity it
    was given; the caller goes on with the returned entity. *)
Definition save (e : Settlement) : M Settlement :=
  roundTrip (RepoSave e) ;;;
  fun w =>
    let (e', t') := persist e (table w) in
    (Ok e', set_table t' w).

End Repository.

(** ** SorobanService *)

Module Soroban.

(** [this.server.getAccount(this.adminKeypair.publicKey())]. *)
Definition getAccount : M unit :=
  fun w =>
    match server (soroban w), adminKeypair (soroban w) with
    | None, _ =>
        (Throw (TypeError "Cannot read properties of undefined (reading 'getAccount')"), w)
    | Some _, None =>
        (Throw (TypeError "Cannot read properties of undefined (reading 'publicKey')"), w)
    | Some _, Some pk =>
        if rpcFails w (rpcSeq w)
        then (Throw RpcError, tick_rpc (RpcGetAccount pk) w)
        else (Ok tt, tick_rpc (RpcGetAccount pk) w)
    end.

Definition dateNow : M N := fun w => (Ok (now w), w).

Definition thisContractId : M string :=
  fun w => (Ok (contractId (soroban w)), w).

Definition mockHash (t : N) : string := "mock_tx_hash_" +:+ show_N t.

(** [invokeContract(functionName, args)], lines 50-81. *)
Definition invokeContract (functionName : string) (args : list string)
  : M string :=
  (fun w => (Ok tt, record_call (SorobanInvoke functionName args) w)) ;;;
  tryCatch
    (cid <~ thisContractId ;;
     logger LOG ("Invoking function " +:+ functionName +:+ " on contract "
                 +:+ cid +:+ "...") ;;;
     getAccount ;;;
     logger LOG "Simulating contract invocation..." ;;;
     t <~ dateNow ;;
     ret (mockHash t))
    (fun error =>
       logger ERROR ("Error invoking contract function " +:+ functionName
                     +:+ ":") ;;;
       throw error).

End Soroban.

(** ** SettlementService *)

Definition referenceOf (bet : string) : string := "settle_" +:+ bet.

(** The [catch] block of [settleBet], lines 66-71, entered with the local
    [settlement] as the [try] block left it. *)
Definition settleBet_catch (bet : string) (settlement : Settlement)
  (error : Error) : M Settlement :=
  logger ERROR ("Failed to settle bet " +:+ bet) ;;;
  Repository.save (set_status FAILED settlement) ;;;
  throw error.

(** Steps 2 to 4 of [settleBet], lines 43-71.  The [try] block mutates the
    local [settlement] between its two awaited calls, so the block is split
    at the assignment of [txHash] and each half hands the entity it has to
    the [catch] block. *)
Definition settleBet_submit (ref bet out : string) (amt : Z) : M Settlement :=
  settlement <~ Repository.save (Repository.create ref bet out amt PENDING) ;;
  r <~ attempt (Soroban.invokeContract "settle" [bet; out; show_Z amt]) ;;
  match r with
  | Throw error => settleBet_catch bet settlement error
  | Ok hash =>
      logger LOG ("Settlement submitted. Tx Hash: " +:+ hash) ;;;
      let settlement := set_txHash (Some hash) settlement in
      r <~ attempt (Repository.save settlement) ;;
      match r with
      | Throw error => settleBet_catch bet settlement error
      | Ok settlement => ret settlement
      end
  end.

(** [settleBet(betId, outcome, amount)], lines 17-72. *)
Definition settleBet (bet out : string) (amt : Z) : M Settlement :=
  let ref := referenceOf bet in
  logger LOG ("Initiating settlement for Bet " +:+ bet +:+ " (Ref: " +:+ ref
              +:+ ")") ;;;
  existing <~ Repository.findOne ref ;;
  match existing with
  | Some e =>
      match status e with
      | CONFIRMED =>
          logger WARN ("Settlement " +:+ ref +:+ " already confirmed.") ;;;
          ret e
      | PENDING =>
          logger WARN ("Settlement " +:+ ref
                       +:+ " is pending. Waiting for reconciliation.") ;;;
          ret e
      | FAILED => settleBet_submit ref bet out amt
      end
  | None => settleBet_submit ref bet out amt
  end.




(** The body of the [for ... of] loop of [reconcile], lines 82-109, over
    the entities that [find] returned. *)
Fixpoint reconcile_loop (pendingSettlements : list Settlement) : M unit :=
  match pendingSettlements with
  | [] => ret tt
  | settlement :: rest =>
      if truthy (txHash settlement) then
        tryCatch
          (logger LOG ("Verifying tx " +:+ show_hash (txHash settlement)
                       +:+ "...") ;;;
           Repository.save (set_status CONFIRMED settlement) ;;;
           logger LOG ("Settlement " +:+ show_id (entityId settlement)
                       +:+ " confirmed."))
          (fun e =>
             logger ERROR ("Error reconciling settlement "
                           +:+ show_id (entityId settlement))) ;;;
        reconcile_loop rest
      else
        logger WARN ("Settlement " +:+ show_id (entityId settlement)
                     +:+ " has no txHash. Marking FAILED.") ;;;
        Repository.save (set_status FAILED settlement) ;;;
        reconcile_loop rest
  end.

(** [reconcile()], lines 74-110. *)
Definition reconcile : M unit :=
  logger LOG "Starting reconciliation process..." ;;;
  pendingSettlements <~ Repository.find PENDING ;;
  reconcile_loop pendingSettlements.

(** ** Initialising the Soroban client *)

Definition set_soroban (s : SorobanService) (w : World) : World :=
  mkWorld (table w) (storeFails w) (storeSeq w) s (rpcFails w) (rpcSeq w)
          (now w) (calls w) (logs w).

(** The two constructors of [@stellar/stellar-sdk] that [initializeClient]
    calls: [new rpc.Server(url)] and [Keypair.fromSecret(secret)].  Each
    answers the object it builds (the server by its handle, the key pair by
    its public key) or throws. *)
Record StellarSdk := mkSdk {
  newServer : string -> Result string;
  fromSecret : string -> Result string
}.

(** [ConfigService.get<string>(key)]: the configured value, or
    [undefined]. *)
Definition ConfigService : Type := string -> option string.

(** [value || '']. *)
Definition orEmpty (value : option string) : string :=
  match value with
  | Some s => s
  | None => ""
  end.

Definition liftResult {A} (r : Result A) : M A := fun w => (r, w).

Definition assign (f : SorobanService -> SorobanService) : M unit :=
  fun w => (Ok tt, set_soroban (f (soroban w)) w).

(** [initializeClient()], lines 25-48. *)
Definition initializeClient (sdk : StellarSdk) (config : ConfigService)
  : M unit :=
  let rpcUrl := config "blockchain.stellar.rpcUrl" in
  assign (fun this =>
            mkSoroban (server this)
                      (orEmpty (config "blockchain.stellar.networkPassphrase"))
                      (contractId this) (adminKeypair this)) ;;;
  assign (fun this =>
            mkSoroban (server this) (networkPassphrase this)
                      (orEmpty (config "blockchain.soroban.contractId"))
                      (adminKeypair this)) ;;;
  let adminSecret := config "blockchain.soroban.adminSecret" in
  cid <~ Soroban.thisContractId ;;
  if negb (truthy rpcUrl) || negb (truthy (Some cid))
     || negb (truthy adminSecret)
  then
    logger WARN
      "Soroban configuration missing. Service will not function correctly."
  else
    srv <~ liftResult (newServer sdk (orEmpty rpcUrl)) ;;
    assign (fun this =>
              mkSoroban (Some srv) (networkPassphrase this) (contractId this)
                        (adminKeypair this)) ;;;
    keypair <~ liftResult (fromSecret sdk (orEmpty adminSecret)) ;;
    assign (fun this =>
              mkSoroban (server this) (networkPassphrase this)
                        (contractId this) (Some keypair)) ;;;
    logger LOG ("SorobanService initialized with Contract ID: " +:+ cid).

(** [onModuleInit()], lines 21-23. *)
Definition onModuleInit (sdk : StellarSdk) (config : ConfigService)
  : M unit :=
  initializeClient sdk config.

(** ** Running a method from a given world *)

Definition result_of {A} (r : Result A * World) : Result A := r.1.
Definition world_of {A} (r : Result A * World) : World := r.2.

(** The calls made by a run that started in [w] and ended in [w']:
    the trace only grows. *)
Definition calls_since (w w' : World) : list Call :=
  drop (length (calls w)) (calls w').

Definition isGatewayCall (c : Call) : bool :=
  match c with
  | SorobanInvoke _ _ | RpcGetAccount _
  | RpcPrepareTransaction | RpcSendTransaction => true
  | _ => false
  end.

Definition isSubmission (c : Call) : bool :=
  match c with
  | RpcPrepareTransaction | RpcSendTransaction => true
  | _ => false
  end.

Definition isInvoke (c : Call) : bool :=
  match c with
  | SorobanInvoke _ _ => true
  | _ => false
  end.


(** ** Leaderboard statistics *)

Module Leaderboard.

(** Modelled from the spec: the [Leaderboard] entity and the handlers of
    [LeaderboardService] ([leaderboard.service.ts] and
    [leaderboard.entity.ts] are described by [LEADERBOARD_IMPLEMENTATION.md]
    but are not among the sources).  The betting and staking columns follow
    the document's table definition; the two-decimal columns are held in
    hundredths. *)
Record Stats := mkStats {
  totalBets : N;
  betsWon : N;
  betsLost : N;
  totalWinnings : Z;            (* hundredths *)
  bettingAccuracy : Z;          (* hundredths of a percent, 0 .. 10000 *)
  winningStreak : N;
  highestWinningStreak : N;
  totalStaked : Z;              (* hundredths *)
  totalStakingRewards : Z;      (* hundredths *)
  activeStakes : Z;             (* hundredths *)
  lastBetAt : option N;
  lastStakeAt : option N
}.

(** Modelled from the spec: the row that [ensureLeaderboardExists] creates
    for an unseen user, "with all counters zeroed". *)
Definition zeroed : Stats := mkStats 0 0 0 0 0 0 0 0 0 0 None None.

(** Modelled from the spec: the [reason] of a [StakeDebited] event. *)
Inductive StakeReason := stake | unstake.

(** Modelled from the spec: the four event envelopes. *)
Inductive Event :=
  | BetPlaced (userId matchId : string) (stakeAmount : Z)
              (predictedOutcome : string) (timestamp : N)
  | BetSettled (userId betId matchId : string) (isWin : bool)
               (stakeAmount winningsAmount : Z) (timestamp : N)
  | StakeCredited (userId : string) (stakedAmount rewardAmount : Z)
                  (timestamp : N)
  | StakeDebited (userId : string) (stakedAmount : Z) (reason : StakeReason)
                 (timestamp : N).

(** Modelled from the spec: the [userId] every event carries. *)
Definition userOf (ev : Event) : string :=
  match ev with
  | BetPlaced u _ _ _ _ => u
  | BetSettled u _ _ _ _ _ _ => u
  | StakeCredited u _ _ _ => u
  | StakeDebited u _ _ _ => u
  end.

(** Modelled from the spec: [round(num / den, 0)], the integer nearest to
    the quotient of two integers, halves rounded up. *)
Definition roundDiv (num den : Z) : Z := ((2 * num + den) / (2 * den))%Z.

(** Modelled from the spec: [round(betsWon / totalBets * 100, 2)] in
    hundredths of a percent, and [0] when there is no settled bet. *)
Definition accuracyOf (won total : N) : Z :=
  if (total =? 0)%N then 0%Z
  else roundDiv (10000 * Z.of_N won) (Z.of_N total).

(** Modelled from the spec: [recalculateAccuracy()] of the entity. *)
Definition recalculateAccuracy (s : Stats) : Stats :=
  mkStats (totalBets s) (betsWon s) (betsLost s) (totalWinnings s)
          (accuracyOf (betsWon s) (totalBets s))
          (winningStreak s) (highestWinningStreak s)
          (totalStaked s) (totalStakingRewards s) (activeStakes s)
          (lastBetAt s) (lastStakeAt s).

(** Modelled from the spec: [updateWinningStreak(isWin)] of the entity: a
    win extends the streak and raises the peak to it, a loss resets the
    streak to 0. *)
Definition updateWinningStreak (isWin : bool) (s : Stats) : Stats :=
  mkStats (totalBets s) (betsWon s) (betsLost s) (totalWinnings s)
          (bettingAccuracy s)
          (if isWin then (winningStreak s + 1)%N else 0%N)
          (if isWin
           then N.max (highestWinningStreak s) (winningStreak s + 1)
           else highestWinningStreak s)
          (totalStaked s) (totalStakingRewards s) (activeStakes s)
          (lastBetAt s) (lastStakeAt s).

(** Modelled from the spec: the counters touched by a settled bet. *)
Definition countBet (isWin : bool) (winningsAmount : Z) (s : Stats) : Stats :=
  mkStats (totalBets s + 1)%N
          (if isWin then (betsWon s + 1)%N else betsWon s)
          (if isWin then betsLost s else (betsLost s + 1)%N)
          (if isWin then (totalWinnings s + winningsAmount)%Z
           else totalWinnings s)
          (bettingAccuracy s)
          (winningStreak s) (highestWinningStreak s)
          (totalStaked s) (totalStakingRewards s) (activeStakes s)
          (lastBetAt s) (lastStakeAt s).

(** Modelled from the spec: [handleBetPlaced(event)]: only the time of the
    last bet changes. *)
Definition handleBetPlaced (ts : N) (s : Stats) : Stats :=
  mkStats (totalBets s) (betsWon s) (betsLost s) (totalWinnings s)
          (bettingAccuracy s) (winningStreak s) (highestWinningStreak s)
          (totalStaked s) (totalStakingRewards s) (activeStakes s)
          (Some ts) (lastStakeAt s).

(** Modelled from the spec: [handleBetSettled(event)]: count the bet, update
    the streak, then recompute the accuracy from the updated counters. *)
Definition handleBetSettled (isWin : bool) (winningsAmount : Z) (s : Stats)
  : Stats :=
  recalculateAccuracy
    (updateWinningStreak isWin (countBet isWin winningsAmount s)).

(** Modelled from the spec: [handleStakeCredited(event)]. *)
Definition handleStakeCredited (rewardAmount : Z) (ts : N) (s : Stats)
  : Stats :=
  mkStats (totalBets s) (betsWon s) (betsLost s) (totalWinnings s)
          (bettingAccuracy s) (winningStreak s) (highestWinningStreak s)
          (totalStaked s) (totalStakingRewards s + rewardAmount)%Z
          (activeStakes s) (lastBetAt s) (Some ts).

(** Modelled from the spec: [handleStakeDebited(event)]: staking adds to the
    lifetime total and to the active stakes, unstaking takes from the active
    stakes only, floored at 0. *)
Definition handleStakeDebited (stakedAmount : Z) (reason : StakeReason)
  (ts : N) (s : Stats) : Stats :=
  mkStats (totalBets s) (betsWon s) (betsLost s) (totalWinnings s)
          (bettingAccuracy s) (winningStreak s) (highestWinningStreak s)
          (match reason with
           | stake => (totalStaked s + stakedAmount)%Z
           | unstake => totalStaked s
           end)
          (totalStakingRewards s)
          (match reason with
           | stake => (activeStakes s + stakedAmount)%Z
           | unstake => Z.max 0 (activeStakes s - stakedAmount)
           end)
          (lastBetAt s) (Some ts).

(** Modelled from the spec: the dispatch of an event to its handler
    (section 4.1). *)
Definition applyTo (ev : Event) (s : Stats) : Stats :=
  match ev with
  | BetPlaced _ _ _ _ ts => handleBetPlaced ts s
  | BetSettled _ _ _ isWin _ winningsAmount _ =>
      handleBetSettled isWin winningsAmount s
  | StakeCredited _ _ rewardAmount ts => handleStakeCredited rewardAmount ts s
  | StakeDebited _ stakedAmount reason ts =>
      handleStakeDebited stakedAmount reason ts s
  end.

(** Modelled from the spec: [apply(event)] of the engine: the row of the
    event's user is resolved, or created zeroed, updated and written back. *)
Definition apply (rowsByUser : gmap string Stats) (ev : Event)
  : gmap string Stats :=
  let row := default zeroed (rowsByUser !! userOf ev) in
  <[userOf ev := applyTo ev row]> rowsByUser.

(** The rows after a sequence of events, delivered oldest first. *)
Definition replay (evs : list Event) (rowsByUser : gmap string Stats)
  : gmap string Stats :=
  foldl apply rowsByUser evs.

(** The invariant of a row (section 3 of the spec). *)
Definition consistent (s : Stats) : Prop :=
  totalBets s = (betsWon s + betsLost s)%N /\
  bettingAccuracy s = accuracyOf (betsWon s) (totalBets s) /\
  (winningStreak s <= highestWinningStreak s)%N.

End Leaderboard.


(** ** Vocabulary of the statements about the settlement services *)

(** No repository call of the run rejects. *)
Definition storeHealthy (w : World) : Prop :=
  forall n, storeFails w n = false.

(** The Soroban client is initialised with the key pair of public key [pk]
    and the next RPC call resolves. *)
Definition gatewayLive (pk : string) (w : World) : Prop :=
  is_Some (server (soroban w)) /\
  adminKeypair (soroban w) = Some pk /\
  rpcFails w (rpcSeq w) = false.

(** What the sweep writes for a pending entity. *)
Definition resolved (e : Settlement) : Settlement :=
  if truthy (txHash e) then set_status CONFIRMED e else set_status FAILED e.

(** The table after the writes of a sweep over [l], when every write is
    accepted. *)
Definition swept (t : gmap N Settlement) (l : list Settlement)
  : gmap N Settlement :=
  foldl (fun t e => (Repository.persist (resolved e) t).2) t l.

(** The status stored under a primary key. *)
Definition statusAt (i : N) (w : World) : option SettlementStatus :=
  status <$> table w !! i.

(** Modelled from the spec: the answers of the gateway's [queryStatus]
    (section 6).  [SorobanService] has no method that asks for the status of
    a transaction, so this type occurs in the spec's reading of the sweep
    only. *)
Inductive GatewayReport :=
  | finalizedSuccess
  | finalizedFailure
  | stillPending
  | unreachable.

(** The sweep as the spec words it, for a gateway that would answer
    [report h] when asked about the handle [h]: a pending record with a
    handle is confirmed only after a gateway call and a finalized-success
    answer, and stays pending when the answer is still-pending or the
    gateway is unreachable. *)
Definition sweepFollowsGateway (report : string -> GatewayReport) (w : World)
  : Prop :=
  let w' := world_of (reconcile w) in
  forall i r h,
    table w !! i = Some r -> status r = PENDING ->
    txHash r = Some h -> truthy (txHash r) = true ->
    (statusAt i w' = Some CONFIRMED ->
       report h = finalizedSuccess /\
       exists c, c ∈ calls_since w w' /\ isGatewayCall c = true) /\
    (report h = stillPending \/ report h = unreachable ->
       statusAt i w' = Some PENDING).

(** ** Worlds used by the examples *)

Definition liveSoroban : SorobanService :=
  mkSoroban (Some "https://mock-rpc") "secret" "C_MOCK" (Some "MOCK_PUBLIC_KEY").

(** The unconfigured service: [initializeClient] returned early. *)
Definition deadSoroban : SorobanService :=
  mkSoroban None "" "" None.

Definition never : nat -> bool := fun _ => false.
Definition always : nat -> bool := fun _ => true.
Definition onlyAt (k : nat) : nat -> bool := fun n => Nat.eqb n k.

(** An empty table, a store and a gateway that answer. *)
Definition emptyWorld : World :=
  mkWorld ∅ never 0%nat liveSoroban never 0%nat 1700000000000 [] [].

(** As [emptyWorld], with an RPC server that rejects every call. *)
Definition offlineWorld : World :=
  mkWorld ∅ never 0%nat liveSoroban always 0%nat 1700000000000 [] [].

Definition bet123 (i : N) (st : SettlementStatus) (h : option string)
  : Settlement :=
  mkSettlement (Some i) "settle_bet123" "bet123" "WIN" 100 st h.

Definition bet456 (i : N) (st : SettlementStatus) (h : option string)
  : Settlement :=
  mkSettlement (Some i) "settle_bet456" "bet456" "LOSE" 250 st h.

(** One settlement of bet123, in the given state. *)
Definition worldWith (s : Settlement) : World :=
  mkWorld {[ 0 := s ]} never 0%nat liveSoroban never 0%nat 1700000000000
          [] [].

(** Two settlements, stored under the keys 1 and 0 ([find] returns the row
    of key 1 first), and a store whose [k]-th call rejects. *)
Definition twoRows (first second : Settlement) (k : nat) : World :=
  mkWorld (<[ 1 := first ]> {[ 0 := second ]}) (onlyAt k) 0%nat liveSoroban
          never 0%nat 1700000000000 [] [].

(** An SDK whose constructors accept every argument: the server handle is
    the URL, the public key is derived from the secret. *)
Definition plainSdk : StellarSdk :=
  mkSdk (fun url => Ok url) (fun secret => Ok ("PUB_" +:+ secret)).

(** The configuration of the service's unit test. *)
Definition testConfig : ConfigService :=
  fun key =>
    if String.eqb key "blockchain.stellar.rpcUrl" then Some "https://mock-rpc"
    else if String.eqb key "blockchain.stellar.networkPassphrase"
    then Some "secret"
    else if String.eqb key "blockchain.soroban.contractId" then Some "C_MOCK"
    else if String.eqb key "blockchain.soroban.adminSecret"
    then Some "S_SECRET"
    else None.

(** No configuration at all. *)
Definition noConfig : ConfigService := fun _ => None.

(** A world whose Soroban service object was constructed and not yet
    initialised. *)
Definition bootWorld : World :=
  mkWorld ∅ never 0%nat deadSoroban never 0%nat 1700000000000 [] [].

(** As [worldWith], with a store whose [k]-th call rejects. *)
Definition faultyWorldWith (t : gmap N Settlement) (k : nat) : World :=
  mkWorld t (onlyAt k) 0%nat liveSoroban never 0%nat 1700000000000 [] [].

(** * Properties *)

(** ** The repository *)

Section RepositoryFacts.

Implicit Types (t : gmap N Settlement) (e r : Settlement) (i k : N).

Lemma elem_of_rows t e :
  e ∈ Repository.rows t <->
  exists k r, t !! k = Some r /\ e = set_entityId (Some k) r.
Proof.
  unfold Repository.rows. rewrite list_elem_of_fmap. split.
  - intros [[k r] [-> Hin]]. apply elem_of_map_to_list in Hin. eauto.
  - intros (k & r & Hk & ->). exists (k, r). split; [done|].
    by apply elem_of_map_to_list.
Qed.

Lemma rows_keys t :
  entityId <$> Repository.rows t = Some <$> (map_to_list t).*1.
Proof.
  unfold Repository.rows. rewrite <- !list_fmap_compose.
  apply list_fmap_ext. by intros ? [k r].
Qed.

Lemma rows_keys_NoDup t : NoDup (entityId <$> Repository.rows t).
Proof.
  rewrite rows_keys. apply NoDup_fmap_2; [apply _|].
  apply NoDup_fst_map_to_list.
Qed.

Lemma elem_of_withStatus st t e :
  e ∈ Repository.withStatus st t <->
  exists k r, t !! k = Some r /\ status r = st /\ e = set_entityId (Some k) r.
Proof.
  unfold Repository.withStatus. rewrite list_elem_of_filter, elem_of_rows.
  split.
  - intros [Hst (k & r & Hk & ->)]. eauto.
  - intros (k & r & Hk & Hst & ->). split; [exact Hst | eauto].
Qed.

Lemma withStatus_keys_NoDup st t :
  NoDup (entityId <$> Repository.withStatus st t).
Proof.
  eapply sublist_NoDup; [apply (rows_keys_NoDup t)|].
  apply fmap_sublist, sublist_filter.
Qed.

Lemma withStatus_keyed st t e :
  e ∈ Repository.withStatus st t -> is_Some (entityId e).
Proof. rewrite elem_of_withStatus. intros (k & r & _ & _ & ->). by eexists. Qed.

(** [findOne] answers [null] exactly when no row has the reference. *)
Lemma lookupReference_None ref t :
  Repository.lookupReference ref t = None <->
  forall k r, t !! k = Some r -> referenceId r <> ref.
Proof.
  unfold Repository.lookupReference. split.
  - intros Hnone k r Hk Href.
    assert (Hin : In (set_entityId (Some k) r) (Repository.rows t)).
    { apply list_elem_of_In, elem_of_rows. eauto. }
    pose proof (find_none _ _ Hnone _ Hin) as Hf.
    unfold Repository.hasReference in Hf. simpl in Hf.
    apply String.eqb_neq in Hf. done.
  - intros Hall. destruct (List.find _ _) as [e|] eqn:Hf; [|done].
    apply find_some in Hf as [Hin Hp].
    apply list_elem_of_In, elem_of_rows in Hin as (k & r & Hk & ->).
    unfold Repository.hasReference in Hp. simpl in Hp.
    apply String.eqb_eq in Hp. by destruct (Hall k r Hk).
Qed.

(** What [findOne] answers is a row with the reference. *)
Lemma lookupReference_Some ref t e :
  Repository.lookupReference ref t = Some e ->
  referenceId e = ref /\
  exists k r, t !! k = Some r /\ e = set_entityId (Some k) r.
Proof.
  unfold Repository.lookupReference. intros Hf.
  apply find_some in Hf as [Hin Hp]. split.
  - by apply String.eqb_eq in Hp.
  - by apply elem_of_rows, list_elem_of_In.
Qed.

(** When a single row has the reference, [findOne] answers that row. *)
Lemma lookupReference_unique ref t k r :
  t !! k = Some r -> referenceId r = ref ->
  (forall k' r', t !! k' = Some r' -> referenceId r' = ref -> k' = k) ->
  Repository.lookupReference ref t = Some (set_entityId (Some k) r).
Proof.
  intros Hk Href Huniq.
  destruct (Repository.lookupReference ref t) as [e|] eqn:Hf.
  - apply lookupReference_Some in Hf as (He & k' & r' & Hk' & ->).
    simpl in He. pose proof (Huniq _ _ Hk' He) as ->.
    rewrite Hk in Hk'. by injection Hk' as ->.
  - rewrite lookupReference_None in Hf. by destruct (Hf _ _ Hk).
Qed.

Lemma fresh_key_unused t : t !! fresh (dom t) = None.
Proof. apply not_elem_of_dom, is_fresh. Qed.

End RepositoryFacts.

(** ** Running the services *)

Ltac unfold_async :=
  unfold tryCatch, attempt, logger, bind, ret, throw, result_of, world_of.

Ltac unfold_services :=
  unfold settleBet, settleBet_submit, settleBet_catch, reconcile,
    Soroban.invokeContract, Soroban.getAccount, Soroban.thisContractId,
    Soroban.dateNow, Repository.findOne, Repository.find, Repository.save,
    Repository.roundTrip;
  unfold_async.

(** The calls of a run are what was appended to the trace. *)
Lemma calls_since_app w w' cs :
  calls w' = calls w ++ cs -> calls_since w w' = cs.
Proof. unfold calls_since. intros ->. apply drop_app_length. Qed.

(** Case analysis on what the world answers to the calls of a run. *)
Ltac case_world w :=
  repeat (simpl; match goal with
    | |- context [storeFails w ?n] => destruct (storeFails w n) eqn:?
    | |- context [rpcFails w ?n] => destruct (rpcFails w n) eqn:?
    | |- context [server (soroban w)] =>
        destruct (server (soroban w)) eqn:?
    | |- context [adminKeypair (soroban w)] =>
        destruct (adminKeypair (soroban w)) eqn:?
    | |- context [Repository.lookupReference ?r (table w)] =>
        destruct (Repository.lookupReference r (table w)) eqn:?
    | |- context [match status ?e with _ => _ end] =>
        destruct (status e) eqn:?
    end).

Ltac trace_of_run :=
  erewrite calls_since_app by (simpl; rewrite <- ?app_assoc; simpl; reflexivity).

(** ** The Soroban service *)



(** Without configuration the client is not initialised, and the
    invocation throws before any RPC call. *)
Example invokeContract_unconfigured :
  let w := mkWorld ∅ never 0%nat deadSoroban never 0%nat 1700000000000 [] [] in
  let run := Soroban.invokeContract "settle" ["bet123"; "WIN"; "100"] w in
  result_of run
    = Throw (TypeError
               "Cannot read properties of undefined (reading 'getAccount')") /\
  calls (world_of run) = [SorobanInvoke "settle" ["bet123"; "WIN"; "100"]] /\
  logs (world_of run)
    = [mkLogLine LOG "Invoking function settle on contract ...";
       mkLogLine ERROR "Error invoking contract function settle:"].
Proof. vm_compute. repeat split. Qed.

(** ** Settling a bet *)

(** The run of [settleBet] when [findOne] answers a record that is PENDING
    or CONFIRMED. *)
Lemma settleBet_existing bet out amt w e :
  storeFails w (storeSeq w) = false ->
  Repository.lookupReference (referenceOf bet) (table w) = Some e ->
  status e <> FAILED ->
  let run := settleBet bet out amt w in
  result_of run = Ok e /\
  table (world_of run) = table w /\
  calls (world_of run) = calls w ++ [RepoFindOne (referenceOf bet)].
Proof.
  intros Hs Hl Hst. unfold_services. simpl. rewrite Hs. simpl. rewrite Hl.
  destruct (status e) eqn:He; done.
Qed.

(** The run of a fresh attempt, with a store and a gateway that answer. *)
Lemma settleBet_attempt bet out amt w pk :
  storeHealthy w -> gatewayLive pk w ->
  (forall e, Repository.lookupReference (referenceOf bet) (table w) = Some e ->
             status e = FAILED) ->
  let i := fresh (dom (table w)) in
  let created := Repository.create (referenceOf bet) bet out amt PENDING in
  let submitted :=
    mkSettlement (Some i) (referenceOf bet) bet out amt PENDING
                 (Some (Soroban.mockHash (now w))) in
  let run := settleBet bet out amt w in
  result_of run = Ok submitted /\
  table (world_of run) = <[i := submitted]> (table w) /\
  calls (world_of run) =
    calls w ++
    [RepoFindOne (referenceOf bet); RepoSave created;
     SorobanInvoke "settle" [bet; out; show_Z amt];
     RpcGetAccount pk; RepoSave submitted] /\
  storeHealthy (world_of run).
Proof.
  intros Hs ([url Hsrv] & Hkey & Hrpc) Hfresh.
  unfold_services. simpl. rewrite !Hs. simpl.
  destruct (Repository.lookupReference (referenceOf bet) (table w))
    as [e|] eqn:Hl; [rewrite (Hfresh e eq_refl)|]; simpl;
    rewrite !Hs; simpl; rewrite Hsrv, Hkey, Hrpc; simpl; rewrite !Hs; simpl;
    (split; [reflexivity|]; split; [apply insert_insert_eq|]; split;
     [rewrite <- !app_assoc; reflexivity | exact Hs]).
Qed.




(** C6: when the record found for the reference is PENDING, [settleBet]
    returns it as it is, leaves the table as it is, and its only call is the
    lookup: no gateway call is issued. *)
Theorem settleBet_pending_returns_existing bet out amt w e :
  storeFails w (storeSeq w) = false ->
  Repository.lookupReference (referenceOf bet) (table w) = Some e ->
  status e = PENDING ->
  let run := settleBet bet out amt w in
  result_of run = Ok e /\
  table (world_of run) = table w /\
  calls_since w (world_of run) = [RepoFindOne (referenceOf bet)] /\
  Forall (fun c => isGatewayCall c = false) (calls_since w (world_of run)).
Proof.
  intros Hs Hl Hp run.
  destruct (settleBet_existing bet out amt w e Hs Hl) as (Hres & Ht & Hc).
  { rewrite Hp. discriminate. }
  apply calls_since_app in Hc.
  repeat split; try done.
  subst run. rewrite Hc. by repeat constructor.
Qed.

Lemma settleBet_pending_returns_existing_witness :
  let w := worldWith (bet123 0 PENDING None) in
  let run := settleBet "bet123" "WIN" 100 w in
  result_of run = Ok (bet123 0 PENDING None) /\
  table (world_of run) = table w /\
  calls_since w (world_of run) = [RepoFindOne "settle_bet123"] /\
  Forall (fun c => isGatewayCall c = false) (calls_since w (world_of run)).
Proof.
  apply (settleBet_pending_returns_existing
           "bet123" "WIN" 100 (worldWith (bet123 0 PENDING None))
           (bet123 0 PENDING None)).
  - reflexivity.
  - reflexivity.
  - reflexivity.
Defined.

(** C7: in a fresh attempt (no record for the reference, or a FAILED one)
    whose gateway call throws [error], with a store that accepts the calls,
    [settleBet] saves the new record a second time with status FAILED and
    throws [error] itself: it does not return, and the stored record is
    FAILED, not PENDING.  (What the gateway answers depends on the Soroban
    client and on the RPC server only, which the steps before the
    invocation leave alone, so the hypothesis is stated in the world of the
    call of [settleBet].) *)
Theorem settleBet_gateway_failure_marks_failed bet out amt w error :
  storeHealthy w ->
  (forall e, Repository.lookupReference (referenceOf bet) (table w) = Some e ->
             status e = FAILED) ->
  result_of (Soroban.invokeContract "settle" [bet; out; show_Z amt] w)
    = Throw error ->
  let i := fresh (dom (table w)) in
  let created := Repository.create (referenceOf bet) bet out amt PENDING in
  let failed :=
    mkSettlement (Some i) (referenceOf bet) bet out amt FAILED None in
  let run := settleBet bet out amt w in
  result_of run = Throw error /\
  table w !! i = None /\
  table (world_of run) !! i = Some failed /\
  statusAt i (world_of run) = Some FAILED /\
  exists rpc,
    calls_since w (world_of run) =
      [RepoFindOne (referenceOf bet); RepoSave created;
       SorobanInvoke "settle" [bet; out; show_Z amt]]
      ++ rpc ++ [RepoSave failed] /\
    Forall (fun c => isSubmission c = false) rpc.
Proof.
  intros Hs Hfresh Hthrow i created failed run.
  split; [|split; [apply fresh_key_unused|]].
  - revert Hthrow. subst run. unfold_services. simpl. rewrite !Hs. simpl.
    destruct (Repository.lookupReference (referenceOf bet) (table w))
      as [e|] eqn:Hl; [rewrite (Hfresh e eq_refl)|]; simpl; rewrite !Hs; simpl;
      destruct (server (soroban w)); simpl;
      try destruct (adminKeypair (soroban w)); simpl;
      try destruct (rpcFails w (rpcSeq w)); simpl; rewrite ?Hs; simpl;
      congruence.
  - unfold statusAt. revert Hthrow. subst run. unfold_services. simpl.
    rewrite !Hs. simpl.
    destruct (Repository.lookupReference (referenceOf bet) (table w))
      as [e|] eqn:Hl; [rewrite (Hfresh e eq_refl)|]; simpl; rewrite !Hs; simpl;
      destruct (server (soroban w)); simpl;
      try destruct (adminKeypair (soroban w)); simpl;
      try destruct (rpcFails w (rpcSeq w)); simpl; rewrite ?Hs; simpl;
      try discriminate; intros _;
      rewrite lookup_insert_eq; simpl;
      (split; [reflexivity|]; split; [reflexivity|]);
      trace_of_run;
      first [ exists []; split; [reflexivity | constructor]
            | eexists [RpcGetAccount _]; split;
              [reflexivity | by repeat constructor] ].
Qed.

Lemma settleBet_gateway_failure_marks_failed_witness :
  let run := settleBet "bet123" "WIN" 100 offlineWorld in
  result_of run = Throw RpcError /\
  table (world_of run) !! 0 = Some (bet123 0 FAILED None) /\
  statusAt 0 (world_of run) = Some FAILED.
Proof.
  destruct (settleBet_gateway_failure_marks_failed
              "bet123" "WIN" 100 offlineWorld RpcError)
    as (Hres & _ & Hrow & Hst & _).
  - intros n. reflexivity.
  - intros e He. vm_compute in He. discriminate He.
  - reflexivity.
  - exact (conj Hres (conj Hrow Hst)).
Defined.

(** C2 fails on the code: the branch for a FAILED record holds a comment
    and no [return].  With a FAILED record stored for [settle_bet123],
    [settleBet('bet123', 'WIN', 100)] does not return that record: it saves
    a second record for the same reference, invokes the gateway, and returns
    the new record, PENDING with a handle. *)
Theorem settleBet_failed_record_is_resubmitted :
  let w := worldWith (bet123 0 FAILED None) in
  let run := settleBet "bet123" "WIN" 100 w in
  Repository.lookupReference "settle_bet123" (table w)
    = Some (bet123 0 FAILED None) /\
  result_of run = Ok (bet123 1 PENDING (Some "mock_tx_hash_1700000000000")) /\
  calls_since w (world_of run) =
    [RepoFindOne "settle_bet123";
     RepoSave (mkSettlement None "settle_bet123" "bet123" "WIN" 100 PENDING
                            None);
     SorobanInvoke "settle" ["bet123"; "WIN"; "100"];
     RpcGetAccount "MOCK_PUBLIC_KEY";
     RepoSave (bet123 1 PENDING (Some "mock_tx_hash_1700000000000"))] /\
  table (world_of run) !! 0 = Some (bet123 0 FAILED None) /\
  table (world_of run) !! 1
    = Some (bet123 1 PENDING (Some "mock_tx_hash_1700000000000")).
Proof. vm_compute. repeat split. Qed.

(** A FAILED record never stops [settleBet]: whatever the store and the
    gateway answer afterwards, the call goes on to save a new PENDING
    record. *)
Lemma settleBet_failed_record_always_retried bet out amt w e :
  storeFails w (storeSeq w) = false ->
  Repository.lookupReference (referenceOf bet) (table w) = Some e ->
  status e = FAILED ->
  exists rest,
    calls_since w (world_of (settleBet bet out amt w)) =
      RepoFindOne (referenceOf bet)
      :: RepoSave (Repository.create (referenceOf bet) bet out amt PENDING)
      :: rest.
Proof.
  intros Hs Hl Hf. unfold_services. simpl. rewrite Hs. simpl.
  rewrite Hl, Hf. case_world w; trace_of_run; eexists; reflexivity.
Qed.

(** ** The sweep *)

Lemma resolved_entityId e : entityId (resolved e) = entityId e.
Proof. unfold resolved. by destruct (truthy _). Qed.

Lemma resolved_status e :
  status (resolved e) = if truthy (txHash e) then CONFIRMED else FAILED.
Proof. unfold resolved. by destruct (truthy _). Qed.

Lemma persist_table e t :
  (Repository.persist e t).2 =
  match entityId e with
  | Some i => <[i := e]> t
  | None => <[fresh (dom t) := set_entityId (Some (fresh (dom t))) e]> t
  end.
Proof. unfold Repository.persist. by destruct (entityId e). Qed.

(** One accepted write of the sweep. *)
Lemma save_accepted e w :
  storeFails w (storeSeq w) = false ->
  Repository.save e w =
  (Ok (Repository.persist e (table w)).1,
   set_table (Repository.persist e (table w)).2 (tick_store (RepoSave e) w)).
Proof.
  intros Hok. unfold Repository.save, Repository.roundTrip, bind.
  rewrite Hok. simpl. by destruct (Repository.persist e (table w)).
Qed.

Lemma save_rejected e w :
  storeFails w (storeSeq w) = true ->
  Repository.save e w = (Throw StoreError, tick_store (RepoSave e) w).
Proof.
  intros Hko. unfold Repository.save, Repository.roundTrip, bind.
  by rewrite Hko.
Qed.

(** One round of the loop whose write is accepted. *)
Lemma reconcile_loop_accepted e l w :
  storeFails w (storeSeq w) = false ->
  exists w1,
    reconcile_loop (e :: l) w = reconcile_loop l w1 /\
    table w1 = (Repository.persist (resolved e) (table w)).2 /\
    calls w1 = calls w ++ [RepoSave (resolved e)] /\
    storeFails w1 = storeFails w /\
    storeSeq w1 = S (storeSeq w).
Proof.
  intros Hok. simpl reconcile_loop. unfold resolved.
  destruct (truthy (txHash e)).
  - unfold tryCatch, attempt, logger, bind. simpl.
    rewrite save_accepted by exact Hok. simpl.
    eexists. split; [reflexivity|]. simpl. done.
  - unfold logger, bind. simpl.
    rewrite save_accepted by exact Hok. simpl.
    eexists. split; [reflexivity|]. simpl. done.
Qed.

(** With a store that accepts every call the sweep completes, and it has
    written [resolved e] for every entity [e] it was given, in order. *)
Lemma reconcile_loop_healthy l : forall w,
  storeHealthy w ->
  exists w',
    reconcile_loop l w = (Ok tt, w') /\
    storeHealthy w' /\
    table w' = swept (table w) l /\
    calls w' = calls w ++ ((fun e => RepoSave (resolved e)) <$> l).
Proof.
  induction l as [|e l IH]; intros w Hw.
  - exists w. simpl. rewrite app_nil_r. done.
  - destruct (reconcile_loop_accepted e l w (Hw _))
      as (w1 & -> & Ht1 & Hc1 & Hf1 & _).
    destruct (IH w1) as (w' & -> & Hw' & Ht & Hc).
    { intros n. rewrite Hf1. apply Hw. }
    exists w'. rewrite Ht, Hc, Ht1, Hc1, <- app_assoc. done.
Qed.

(** One round of the loop, whatever the store answers: the round makes one
    write call; the table is as before or holds the write; the loop goes on
    or the error of the write leaves it. *)
Lemma reconcile_loop_round e l w :
  exists w1,
    calls w1 = calls w ++ [RepoSave (resolved e)] /\
    (table w1 = table w \/
     table w1 = (Repository.persist (resolved e) (table w)).2) /\
    (reconcile_loop (e :: l) w = reconcile_loop l w1 \/
     reconcile_loop (e :: l) w = (Throw StoreError, w1)).
Proof.
  destruct (storeFails w (storeSeq w)) eqn:Hs.
  - simpl reconcile_loop. unfold resolved.
    destruct (truthy (txHash e)).
    + unfold tryCatch, attempt, logger, bind. simpl.
      rewrite save_rejected by exact Hs. simpl.
      eexists. split; [|split; [left|left; reflexivity]]; done.
    + unfold logger, bind. simpl.
      rewrite save_rejected by exact Hs. simpl.
      eexists. split; [|split; [left|right; reflexivity]]; done.
  - destruct (reconcile_loop_accepted e l w Hs) as (w1 & ? & ? & ? & _).
    exists w1. auto.
Qed.

(** The sweep under any behaviour of the store: it calls nothing but the
    repository, and a row is either as it was or holds what the sweep
    writes for the entity of its key. *)
Lemma reconcile_loop_any l : forall w,
  (forall e, e ∈ l -> is_Some (entityId e)) ->
  let w' := world_of (reconcile_loop l w) in
  (exists cs, calls w' = calls w ++ cs /\
              Forall (fun c => isGatewayCall c = false) cs) /\
  (forall i, table w' !! i = table w !! i \/
             exists e, e ∈ l /\ entityId e = Some i /\
                       table w' !! i = Some (resolved e)).
Proof.
  induction l as [|e l IH]; intros w Hkeys; cbv zeta.
  - simpl. split; [exists []; by rewrite app_nil_r | by left].
  - destruct (reconcile_loop_round e l w) as (w1 & Hc1 & Ht1 & Hrun).
    assert (Hstep : forall i,
      table w1 !! i = table w !! i \/
      (entityId e = Some i /\ table w1 !! i = Some (resolved e))).
    { intros i. destruct Ht1 as [-> | ->]; [by left|].
      rewrite persist_table, resolved_entityId.
      destruct (Hkeys e) as [k Hk]; [left|]. rewrite Hk.
      destruct (decide (k = i)) as [->|Hne].
      - right. by rewrite lookup_insert_eq.
      - left. by rewrite lookup_insert_ne. }
    destruct Hrun as [-> | ->].
    + destruct (IH w1) as [(cs & Hcs & Hgw) Hrows].
      { intros e' He'. apply Hkeys. by right. }
      split.
      * exists (RepoSave (resolved e) :: cs).
        rewrite Hcs, Hc1, <- app_assoc. split; [done|].
        by constructor.
      * intros i. destruct (Hrows i) as [Heq | (e' & He' & Hk' & Hv')].
        -- rewrite Heq. destruct (Hstep i) as [? | [? ?]]; [by left|].
           right. exists e. split; [left|]. done.
        -- right. exists e'. split; [by right|]. done.
    + simpl. split.
      * exists [RepoSave (resolved e)]. split; [done|]. by repeat constructor.
      * intros i. destruct (Hstep i) as [? | [? ?]]; [by left|].
        right. exists e. split; [left|]. done.
Qed.

(** The rows after the accepted writes of a sweep over entities with
    pairwise distinct keys. *)
Lemma swept_lookup_other l : forall t i,
  (forall e, e ∈ l -> is_Some (entityId e) /\ entityId e <> Some i) ->
  swept t l !! i = t !! i.
Proof.
  induction l as [|e l IH]; intros t i Hl; [done|].
  unfold swept. simpl. fold (swept (Repository.persist (resolved e) t).2 l).
  rewrite IH by (intros e' He'; apply Hl; by right).
  rewrite persist_table, resolved_entityId.
  destruct (Hl e) as [[k Hk] Hne]; [left|]. rewrite Hk.
  apply lookup_insert_ne. congruence.
Qed.

Lemma swept_lookup_in l : forall t i e,
  NoDup (entityId <$> l) ->
  (forall e', e' ∈ l -> is_Some (entityId e')) ->
  e ∈ l -> entityId e = Some i ->
  swept t l !! i = Some (resolved e).
Proof.
  induction l as [|e0 l IH]; intros t i e Hnd Hkeys Hin Hi.
  - by apply elem_of_nil in Hin.
  - unfold swept. simpl.
    fold (swept (Repository.persist (resolved e0) t).2 l).
    rewrite fmap_cons in Hnd. apply NoDup_cons in Hnd as [Hfresh Hnd].
    apply elem_of_cons in Hin as [-> | Hin].
    + rewrite swept_lookup_other.
      * rewrite persist_table, resolved_entityId, Hi.
        apply lookup_insert_eq.
      * intros e' He'. split; [apply Hkeys; by right|].
        intros Heq. apply Hfresh. rewrite Hi, <- Heq.
        by apply list_elem_of_fmap_2.
    + apply IH; try done. intros e' He'. apply Hkeys. by right.
Qed.

(** The sweep is the loop over the pending rows. *)
Lemma reconcile_found w :
  storeFails w (storeSeq w) = false ->
  exists w1,
    reconcile w =
      reconcile_loop (Repository.withStatus PENDING (table w)) w1 /\
    table w1 = table w /\
    calls w1 = calls w ++ [RepoFind PENDING] /\
    storeFails w1 = storeFails w.
Proof.
  intros Hok. unfold reconcile, Repository.find, Repository.roundTrip,
    logger, bind. simpl. rewrite Hok. simpl.
  eexists. split; [reflexivity|]. done.
Qed.

Lemma reconcile_not_found w :
  storeFails w (storeSeq w) = true ->
  exists w1,
    reconcile w = (Throw StoreError, w1) /\
    table w1 = table w /\
    calls w1 = calls w ++ [RepoFind PENDING].
Proof.
  intros Hko. unfold reconcile, Repository.find, Repository.roundTrip,
    logger, bind. simpl. rewrite Hko. simpl.
  eexists. split; [reflexivity|]. done.
Qed.

(** The sweep makes no call to the gateway, and a row is afterwards as it
    was or as the sweep resolves it. *)
Lemma reconcile_any w :
  let w' := world_of (reconcile w) in
  Forall (fun c => isGatewayCall c = false) (calls_since w w') /\
  forall i r, table w !! i = Some r ->
    table w' !! i = Some r \/
    (status r = PENDING /\
     table w' !! i = Some (resolved (set_entityId (Some i) r))).
Proof.
  destruct (storeFails w (storeSeq w)) eqn:Hs.
  - destruct (reconcile_not_found w Hs) as (w1 & Hrun & Ht & Hc).
    simpl. rewrite Hrun. simpl. split.
    + rewrite (calls_since_app _ _ _ Hc). by repeat constructor.
    + intros i r Hi. left. by rewrite Ht.
  - destruct (reconcile_found w Hs) as (w1 & Hrun & Ht & Hc & _).
    simpl. rewrite Hrun.
    destruct (reconcile_loop_any (Repository.withStatus PENDING (table w)) w1)
      as [(cs & Hcs & Hgw) Hrows].
    { intros e. apply withStatus_keyed. }
    split.
    + erewrite calls_since_app; [|rewrite Hcs, Hc, <- app_assoc; done].
      by constructor.
    + intros i r Hi.
      destruct (Hrows i) as [Heq | (e & He & Hk & Hv)].
      * left. by rewrite Heq, Ht.
      * apply elem_of_withStatus in He as (k & r' & Hk' & Hst & ->).
        simpl in Hk. injection Hk as ->.
        rewrite Hi in Hk'. injection Hk' as <-.
        right. done.
Qed.

(** With a store that accepts every call, the sweep completes, resolves
    every pending row, and has called [find] and then [save] once for each
    pending row. *)
Lemma reconcile_healthy w :
  storeHealthy w ->
  let w' := world_of (reconcile w) in
  result_of (reconcile w) = Ok tt /\
  storeHealthy w' /\
  calls w' =
    calls w ++
    RepoFind PENDING ::
    ((fun e => RepoSave (resolved e))
       <$> Repository.withStatus PENDING (table w)) /\
  forall i,
    table w' !! i =
      (fun r => if decide (status r = PENDING)
                then resolved (set_entityId (Some i) r) else r)
        <$> table w !! i.
Proof.
  intros Hw.
  destruct (reconcile_found w (Hw _)) as (w1 & Hrun & Ht & Hc & Hf).
  simpl. rewrite Hrun.
  destruct (reconcile_loop_healthy (Repository.withStatus PENDING (table w)) w1)
    as (w' & -> & Hw' & Ht' & Hc').
  { intros n. rewrite Hf. apply Hw. }
  split; [done|]. split; [exact Hw'|]. split.
  { simpl. rewrite Hc', Hc, <- app_assoc. done. }
  intros i. simpl. rewrite Ht', Ht.
  destruct (table w !! i) as [r|] eqn:Hi; simpl.
  - destruct (decide (status r = PENDING)) as [Hp | Hp].
    + apply swept_lookup_in.
      * apply withStatus_keys_NoDup.
      * intros e. apply withStatus_keyed.
      * apply elem_of_withStatus. eauto.
      * done.
    + rewrite swept_lookup_other; [done|].
      intros e He. split; [by eapply withStatus_keyed|].
      apply elem_of_withStatus in He as (k & r' & Hk' & Hst & ->).
      simpl. intros [= ->]. rewrite Hi in Hk'. by injection Hk' as <-.
  - rewrite swept_lookup_other; [done|].
    intros e He. split; [by eapply withStatus_keyed|].
    apply elem_of_withStatus in He as (k & r' & Hk' & Hst & ->).
    simpl. intros [= ->]. by rewrite Hi in Hk'.
Qed.

(** C1, as the spec states it, fails: a pending record whose handle the
    gateway would report as still pending is confirmed by the sweep. *)
Lemma sweep_ignores_gateway_answer :
  ~ sweepFollowsGateway (fun _ => stillPending)
      (worldWith (bet123 0 PENDING (Some "mock_tx_hash_1"))).
Proof.
  intros Hspec.
  destruct (Hspec 0 (bet123 0 PENDING (Some "mock_tx_hash_1"))
              "mock_tx_hash_1" eq_refl eq_refl eq_refl eq_refl)
    as [_ Hstays].
  specialize (Hstays (or_introl eq_refl)).
  vm_compute in Hstays. discriminate Hstays.
Qed.

(** C1, amended: when the store accepts the calls of the sweep,
    [reconcile()] completes and every PENDING record whose [txHash] is
    present is stored as CONFIRMED; the sweep makes no call to the gateway,
    so the record is confirmed whatever the gateway would report about its
    handle. *)
Theorem reconcile_confirms_submitted w i r :
  storeHealthy w ->
  table w !! i = Some r -> status r = PENDING ->
  truthy (txHash r) = true ->
  let w' := world_of (reconcile w) in
  result_of (reconcile w) = Ok tt /\
  table w' !! i = Some (set_status CONFIRMED (set_entityId (Some i) r)) /\
  statusAt i w' = Some CONFIRMED /\
  Forall (fun c => isGatewayCall c = false) (calls_since w w').
Proof.
  intros Hw Hi Hp Hh w'.
  destruct (reconcile_healthy w Hw) as (Hres & _ & _ & Hrows).
  destruct (reconcile_any w) as [Hcalls _].
  assert (Hrow : table w' !! i
                 = Some (set_status CONFIRMED (set_entityId (Some i) r))).
  { subst w'. rewrite (Hrows i), Hi. simpl.
    destruct (decide (status r = PENDING)); [|done].
    unfold resolved. simpl. by rewrite Hh. }
  repeat split; try done.
  unfold statusAt. by rewrite Hrow.
Qed.

Lemma reconcile_confirms_submitted_witness :
  let w := worldWith (bet123 0 PENDING (Some "mock_tx_hash_1")) in
  result_of (reconcile w) = Ok tt /\
  table (world_of (reconcile w)) !! 0
    = Some (bet123 0 CONFIRMED (Some "mock_tx_hash_1")) /\
  statusAt 0 (world_of (reconcile w)) = Some CONFIRMED /\
  Forall (fun c => isGatewayCall c = false)
         (calls_since w (world_of (reconcile w))).
Proof.
  apply (reconcile_confirms_submitted
           (worldWith (bet123 0 PENDING (Some "mock_tx_hash_1"))) 0
           (bet123 0 PENDING (Some "mock_tx_hash_1"))).
  - intros n. reflexivity.
  - reflexivity.
  - reflexivity.
  - reflexivity.
Defined.

(** C4: a PENDING record whose [txHash] is absent is never stored as
    CONFIRMED by [reconcile()], whatever the store answers; when the store
    accepts the calls of the sweep, [reconcile()] completes, has saved the
    record with status FAILED, and the stored row is that FAILED record. *)
Theorem reconcile_fails_unsubmitted w i r :
  table w !! i = Some r -> status r = PENDING ->
  truthy (txHash r) = false ->
  let w' := world_of (reconcile w) in
  let failed := set_status FAILED (set_entityId (Some i) r) in
  statusAt i w' <> Some CONFIRMED /\
  (storeHealthy w ->
     result_of (reconcile w) = Ok tt /\
     RepoSave failed ∈ calls_since w w' /\
     table w' !! i = Some failed /\
     statusAt i w' = Some FAILED).
Proof.
  intros Hi Hp Hh w' failed.
  assert (Hres : resolved (set_entityId (Some i) r) = failed).
  { unfold resolved. simpl. by rewrite Hh. }
  split.
  - destruct (reconcile_any w) as [_ Hrows].
    unfold statusAt. subst w'.
    destruct (Hrows i r Hi) as [-> | [_ ->]]; simpl.
    + rewrite Hp. discriminate.
    + rewrite Hres. discriminate.
  - intros Hw.
    destruct (reconcile_healthy w Hw) as (Hok & _ & Hcalls & Hrows).
    apply calls_since_app in Hcalls.
    assert (Hrow : table w' !! i = Some failed).
    { subst w'. rewrite (Hrows i), Hi. simpl.
      destruct (decide (status r = PENDING)); [|done]. by rewrite Hres. }
    repeat split; try done.
    + subst w'. rewrite Hcalls. right.
      rewrite <- Hres.
      apply (list_elem_of_fmap_2 (fun e => RepoSave (resolved e))).
      apply elem_of_withStatus. eauto.
    + unfold statusAt. by rewrite Hrow.
Qed.

Lemma reconcile_fails_unsubmitted_witness :
  let w := worldWith (bet123 0 PENDING None) in
  statusAt 0 (world_of (reconcile w)) <> Some CONFIRMED /\
  result_of (reconcile w) = Ok tt /\
  RepoSave (bet123 0 FAILED None) ∈ calls_since w (world_of (reconcile w)) /\
  table (world_of (reconcile w)) !! 0 = Some (bet123 0 FAILED None) /\
  statusAt 0 (world_of (reconcile w)) = Some FAILED.
Proof.
  destruct (reconcile_fails_unsubmitted
              (worldWith (bet123 0 PENDING None)) 0 (bet123 0 PENDING None))
    as [Hnever Hhealthy].
  - reflexivity.
  - reflexivity.
  - reflexivity.
  - split; [exact Hnever|]. apply Hhealthy. intros n. reflexivity.
Defined.

(** C9 fails on the code: the write of a record without [txHash] is outside
    the [try] block.  Two pending records, the first to be processed without
    a handle, and a store that rejects that first write: [reconcile()]
    rejects with the store's error, the second record is never written and
    stays PENDING. *)
Theorem reconcile_aborts_on_unsubmitted_write :
  let w := twoRows (bet123 1 PENDING None)
                   (bet456 0 PENDING (Some "mock_tx_hash_5")) 1 in
  let run := reconcile w in
  Repository.withStatus PENDING (table w)
    = [bet123 1 PENDING None; bet456 0 PENDING (Some "mock_tx_hash_5")] /\
  result_of run = Throw StoreError /\
  calls_since w (world_of run)
    = [RepoFind PENDING; RepoSave (bet123 1 FAILED None)] /\
  table (world_of run) !! 0
    = Some (bet456 0 PENDING (Some "mock_tx_hash_5")) /\
  table (world_of run) !! 1 = Some (bet123 1 PENDING None).
Proof. vm_compute. repeat split. Qed.

(** The sibling path: when the rejected write is the one of a record with
    a handle, the error is caught and the sweep goes on to the next
    record. *)
Example reconcile_survives_submitted_write :
  let w := twoRows (bet123 1 PENDING (Some "mock_tx_hash_4"))
                   (bet456 0 PENDING None) 1 in
  let run := reconcile w in
  result_of run = Ok tt /\
  calls_since w (world_of run)
    = [RepoFind PENDING;
       RepoSave (bet123 1 CONFIRMED (Some "mock_tx_hash_4"));
       RepoSave (bet456 0 FAILED None)] /\
  table (world_of run) !! 0 = Some (bet456 0 FAILED None) /\
  table (world_of run) !! 1
    = Some (bet123 1 PENDING (Some "mock_tx_hash_4")).
Proof. vm_compute. repeat split. Qed.

(** ** A sweep between two calls *)

Lemma mockHash_truthy t : truthy (Some (Soroban.mockHash t)) = true.
Proof. reflexivity. Qed.

Lemma writes_are_not_invocations (l : list Settlement) :
  List.filter isInvoke ((fun e => RepoSave (resolved e)) <$> l) = [].
Proof. induction l as [|e l IH]; [done|]. simpl. exact IH. Qed.

(** A sweep after the first call of [settleBet] is one way in which the
    record of that call reaches CONFIRMED: afterwards the record found for
    the reference is the one the first call returned, now CONFIRMED, and
    the sweep has not invoked the gateway. *)
Lemma sweep_after_first_call bet out amt w pk :
  storeHealthy w -> gatewayLive pk w ->
  Repository.lookupReference (referenceOf bet) (table w) = None ->
  let first :=
    mkSettlement (Some (fresh (dom (table w)))) (referenceOf bet) bet out amt
                 PENDING (Some (Soroban.mockHash (now w))) in
  let w1 := world_of (settleBet bet out amt w) in
  let w2 := world_of (reconcile w1) in
  storeHealthy w2 /\
  Repository.lookupReference (referenceOf bet) (table w2)
    = Some (set_status CONFIRMED first) /\
  exists between,
    calls w2 = calls w1 ++ between /\ List.filter isInvoke between = [].
Proof.
  intros Hs Hgw Hnone first w1 w2.
  destruct (settleBet_attempt bet out amt w pk Hs Hgw)
    as (_ & Ht1 & _ & Hs1).
  { intros e He. congruence. }
  destruct (reconcile_healthy w1 Hs1) as (_ & Hs2 & Hc2 & Hrows).
  fold w2 in Hs2, Hc2, Hrows. fold w1 in Ht1.
  split; [exact Hs2|]. split.
  - set (i := fresh (dom (table w))).
    assert (Hrow : table w2 !! i = Some (set_status CONFIRMED first)).
    { rewrite Hrows, Ht1. fold i. rewrite lookup_insert_eq. done. }
    rewrite (lookupReference_unique _ _ i _ Hrow); [done|done|].
    intros k' r' Hk' Href'.
    destruct (decide (k' = i)) as [->|Hne]; [done|].
    rewrite Hrows, Ht1 in Hk'. fold i in Hk'.
    rewrite lookup_insert_ne in Hk' by done.
    destruct (table w !! k') as [r0|] eqn:Hk0; [|done].
    rewrite lookupReference_None in Hnone.
    destruct (Hnone _ _ Hk0). simpl in Hk'. injection Hk' as <-.
    rewrite <- Href'. unfold resolved.
    by repeat destruct (_ : bool); destruct (decide _).
  - eexists. split; [exact Hc2|]. simpl.
    apply writes_are_not_invocations.
Qed.

(** C3: a first call of [settleBet] for a bet without record, with a store
    and a gateway that answer, returns the record [first]; if, when the
    second call starts, the record found for the reference is [first] with
    status CONFIRMED and nothing invoked the gateway in between, the second
    call returns that CONFIRMED record as it is and leaves the table as it
    is; both calls return the same record, the first as PENDING and the
    second in its terminal state; the gateway was invoked exactly once
    across the two calls. *)
Theorem settleBet_twice_after_confirmation bet out amt w pk w2 between :
  storeHealthy w -> gatewayLive pk w ->
  Repository.lookupReference (referenceOf bet) (table w) = None ->
  let first :=
    mkSettlement (Some (fresh (dom (table w)))) (referenceOf bet) bet out amt
                 PENDING (Some (Soroban.mockHash (now w))) in
  let run1 := settleBet bet out amt w in
  storeFails w2 (storeSeq w2) = false ->
  Repository.lookupReference (referenceOf bet) (table w2)
    = Some (set_status CONFIRMED first) ->
  calls w2 = calls (world_of run1) ++ between ->
  List.filter isInvoke between = [] ->
  let run2 := settleBet bet out amt w2 in
  result_of run1 = Ok first /\
  result_of run2 = Ok (set_status CONFIRMED first) /\
  table (world_of run2) = table w2 /\
  calls_since w2 (world_of run2) = [RepoFindOne (referenceOf bet)] /\
  List.filter isInvoke (calls_since w (world_of run2))
    = [SorobanInvoke "settle" [bet; out; show_Z amt]].
Proof.
  intros Hs Hgw Hnone first run1 Hs2 Hl2 Hbetween Hquiet run2.
  destruct (settleBet_attempt bet out amt w pk Hs Hgw)
    as (Hres1 & _ & Hc1 & _).
  { intros e He. congruence. }
  destruct (settleBet_existing bet out amt w2 (set_status CONFIRMED first)
              Hs2 Hl2) as (Hres2 & Ht2 & Hc2); [discriminate|].
  assert (Hall : calls (world_of run2)
                 = calls w ++
                   ([RepoFindOne (referenceOf bet);
                     RepoSave (Repository.create (referenceOf bet) bet out
                                                 amt PENDING);
                     SorobanInvoke "settle" [bet; out; show_Z amt];
                     RpcGetAccount pk; RepoSave first]
                    ++ between ++ [RepoFindOne (referenceOf bet)])).
  { subst run2. rewrite Hc2, Hbetween. subst run1. rewrite Hc1.
    by rewrite <- !app_assoc. }
  repeat split; try done.
  - by apply calls_since_app.
  - rewrite (calls_since_app _ _ _ Hall).
    rewrite !List.filter_app, Hquiet. reflexivity.
Qed.

Lemma settleBet_twice_after_confirmation_witness :
  let w1 := world_of (settleBet "bet123" "WIN" 100 emptyWorld) in
  let w2 := world_of (reconcile w1) in
  let run2 := settleBet "bet123" "WIN" 100 w2 in
  result_of (settleBet "bet123" "WIN" 100 emptyWorld)
    = Ok (bet123 0 PENDING (Some "mock_tx_hash_1700000000000")) /\
  result_of run2
    = Ok (bet123 0 CONFIRMED (Some "mock_tx_hash_1700000000000")) /\
  table (world_of run2) = table w2 /\
  calls_since w2 (world_of run2) = [RepoFindOne "settle_bet123"] /\
  List.filter isInvoke (calls_since emptyWorld (world_of run2))
    = [SorobanInvoke "settle" ["bet123"; "WIN"; "100"]].
Proof.
  apply (settleBet_twice_after_confirmation
           "bet123" "WIN" 100 emptyWorld "MOCK_PUBLIC_KEY"
           (world_of (reconcile
              (world_of (settleBet "bet123" "WIN" 100 emptyWorld))))
           [RepoFind PENDING;
            RepoSave (bet123 0 CONFIRMED
                             (Some "mock_tx_hash_1700000000000"))]).
  - intros n. reflexivity.
  - split; [by eexists | split; reflexivity].
  - reflexivity.
  - reflexivity.
  - vm_compute. reflexivity.
  - vm_compute. reflexivity.
  - reflexivity.
Defined.

(** ** Leaderboard rows *)

Section LeaderboardFacts.

Import Leaderboard.

(** [roundDiv num den] is the integer nearest to [num / den]: it differs
    from the quotient by at most one half, halves going up. *)
Lemma roundDiv_nearest num den :
  (0 < den)%Z ->
  (2 * den * roundDiv num den - den <= 2 * num
   < 2 * den * roundDiv num den + den)%Z.
Proof.
  intros Hden. unfold roundDiv.
  pose proof (Z.div_mod (2 * num + den) (2 * den)) as Hdm.
  pose proof (Z.mod_pos_bound (2 * num + den) (2 * den)) as Hb.
  lia.
Qed.

(** The accuracy is a percentage in hundredths when the wins are among the
    settled bets. *)
Lemma accuracyOf_range won total :
  (won <= total)%N -> (0 <= accuracyOf won total <= 10000)%Z.
Proof.
  intros Hle. unfold accuracyOf.
  destruct (total =? 0)%N eqn:Hz; [lia|].
  apply N.eqb_neq in Hz.
  pose proof (roundDiv_nearest (10000 * Z.of_N won) (Z.of_N total)) as Hn.
  nia.
Qed.

Lemma zeroed_consistent : consistent zeroed.
Proof. repeat split. simpl. lia. Qed.

Lemma handleBetSettled_consistent isWin winningsAmount s :
  consistent s -> consistent (handleBetSettled isWin winningsAmount s).
Proof.
  intros (Htot & _ & Hstreak). unfold consistent. simpl.
  split; [destruct isWin; lia|]. split; [reflexivity|].
  destruct isWin; lia.
Qed.

Lemma applyTo_consistent ev s : consistent s -> consistent (applyTo ev s).
Proof.
  destruct ev; simpl; [|apply handleBetSettled_consistent| |];
    intros (? & ? & ?); by repeat split.
Qed.

Lemma apply_consistent rowsByUser ev :
  map_Forall (fun _ s => consistent s) rowsByUser ->
  map_Forall (fun _ s => consistent s) (apply rowsByUser ev).
Proof.
  intros Hall. unfold apply. apply map_Forall_insert_2; [|exact Hall].
  apply applyTo_consistent.
  destruct (rowsByUser !! userOf ev) as [s|] eqn:Hs; simpl.
  - exact (Hall _ _ Hs).
  - exact zeroed_consistent.
Qed.

Lemma replay_consistent evs : forall rowsByUser,
  map_Forall (fun _ s => consistent s) rowsByUser ->
  map_Forall (fun _ s => consistent s) (replay evs rowsByUser).
Proof.
  induction evs as [|ev evs IH]; intros rowsByUser Hall; [exact Hall|].
  unfold replay. simpl. apply IH, apply_consistent, Hall.
Qed.

End LeaderboardFacts.

(** C8: for every user and every sequence of events delivered to the
    engine, settled bets among them, the row of the user after each event
    (the zeroed row while the user has none) satisfies
    [totalBets = betsWon + betsLost], holds as [bettingAccuracy] the value
    [round(betsWon / totalBets * 100, 2)] when [totalBets > 0] and [0]
    otherwise, and has [winningStreak <= highestWinningStreak]. *)
Theorem leaderboard_row_invariant (evs : list Leaderboard.Event) (n : nat)
  (user : string) :
  let row :=
    default Leaderboard.zeroed
            (Leaderboard.replay (take n evs) ∅ !! user) in
  Leaderboard.totalBets row
    = (Leaderboard.betsWon row + Leaderboard.betsLost row)%N /\
  Leaderboard.bettingAccuracy row
    = (if (Leaderboard.totalBets row =? 0)%N then 0%Z
       else Leaderboard.roundDiv
              (10000 * Z.of_N (Leaderboard.betsWon row))
              (Z.of_N (Leaderboard.totalBets row))) /\
  (Leaderboard.winningStreak row <= Leaderboard.highestWinningStreak row)%N.
Proof.
  intros row.
  assert (Hrow : Leaderboard.consistent row).
  { subst row.
    destruct (Leaderboard.replay (take n evs) ∅ !! user) as [s|] eqn:Hs; simpl.
    - eapply (replay_consistent (take n evs) ∅); [|exact Hs].
      apply map_Forall_empty.
    - apply zeroed_consistent. }
  exact Hrow.
Qed.

(** The scenario of the spec: a win of 50 and then a loss. *)
Example leaderboard_win_then_loss :
  let evs := [Leaderboard.BetPlaced "U" "m1" 1000 "HOME" 1;
              Leaderboard.BetSettled "U" "b1" "m1" true 1000 5000 2;
              Leaderboard.BetSettled "U" "b2" "m2" false 1000 0 3] in
  Leaderboard.replay (take 2 evs) ∅ !! "U"
    = Some (Leaderboard.mkStats 1 1 0 5000 10000 1 1 0 0 0 (Some 1) None) /\
  Leaderboard.replay evs ∅ !! "U"
    = Some (Leaderboard.mkStats 2 1 1 5000 5000 0 1 0 0 0 (Some 1) None).
Proof. vm_compute. split; reflexivity. Qed.

(** * Further properties of the services *)

(** ** [settleBet] under any behaviour of the store and of the gateway *)

Ltac keep_other_rows :=
  rewrite ?lookup_insert_ne
    by (intros <-;
        match goal with
        | H : table _ !! fresh (dom (table _)) = Some _ |- _ =>
            rewrite fresh_key_unused in H; discriminate H
        end).

(** X1: [settleBet] never changes a row that is already in the table,
    whatever the store and the gateway answer: the only key it writes to is
    one that no row uses. *)
Theorem settleBet_keeps_existing_rows bet out amt w k r :
  table w !! k = Some r ->
  table (world_of (settleBet bet out amt w)) !! k = Some r.
Proof.
  intros Hk. unfold_services. case_world w; simpl; keep_other_rows;
    exact Hk.
Qed.

Lemma settleBet_keeps_existing_rows_witness :
  table (world_of (settleBet "bet456" "LOSE" 250
                             (worldWith (bet123 0 CONFIRMED (Some "h")))))
    !! 0 = Some (bet123 0 CONFIRMED (Some "h")).
Proof.
  apply (settleBet_keeps_existing_rows
           "bet456" "LOSE" 250 (worldWith (bet123 0 CONFIRMED (Some "h")))).
  reflexivity.
Defined.

Ltac split_membership H :=
  rewrite ?elem_of_cons, ?elem_of_nil in H;
  repeat (destruct H as [H|H]); try (exfalso; exact H).

(** X2: whatever the store and the gateway answer, a run of [settleBet]
    that reaches the gateway has first had its lookup and the save of the
    new PENDING record accepted, in that order, and the record of the
    attempt is in the table when the run ends. *)
Theorem settleBet_invokes_after_intent bet out amt w c :
  c ∈ calls_since w (world_of (settleBet bet out amt w)) ->
  isGatewayCall c = true ->
  let i := fresh (dom (table w)) in
  let created := Repository.create (referenceOf bet) bet out amt PENDING in
  storeFails w (storeSeq w) = false /\
  storeFails w (S (storeSeq w)) = false /\
  (exists rest,
     calls_since w (world_of (settleBet bet out amt w)) =
       RepoFindOne (referenceOf bet) :: RepoSave created
       :: SorobanInvoke "settle" [bet; out; show_Z amt] :: rest) /\
  exists e, table (world_of (settleBet bet out amt w)) !! i = Some e /\
            referenceId e = referenceOf bet /\ betId e = bet.
Proof.
  destruct (storeFails w (storeSeq w)) eqn:H0;
    destruct (storeFails w (S (storeSeq w))) eqn:H1;
    unfold_services; case_world w; simpl; try congruence; trace_of_run;
    intros Hin Hgw; split_membership Hin; subst c; try discriminate Hgw;
    (split; [reflexivity|]; split; [reflexivity|]; split;
     [eexists; reflexivity|];
     eexists; split; [apply lookup_insert_eq|]; split; reflexivity).
Qed.

Lemma settleBet_invokes_after_intent_witness :
  let run := settleBet "bet123" "WIN" 100 offlineWorld in
  exists e, table (world_of run) !! 0 = Some e /\
            referenceId e = "settle_bet123" /\ betId e = "bet123".
Proof.
  destruct (settleBet_invokes_after_intent
              "bet123" "WIN" 100 offlineWorld
              (SorobanInvoke "settle" ["bet123"; "WIN"; "100"]))
    as (_ & _ & _ & Hrow).
  - vm_compute. right. right. left.
  - reflexivity.
  - exact Hrow.
Defined.

(** X3: when the store rejects the lookup, or rejects the save of the new
    record of a fresh attempt, [settleBet] throws the store's error, leaves
    the table as it is and never reaches the gateway. *)
Theorem settleBet_store_down_before_submission bet out amt w :
  storeFails w (storeSeq w) = true \/
  ((forall e,
      Repository.lookupReference (referenceOf bet) (table w) = Some e ->
      status e = FAILED) /\
   storeFails w (storeSeq w) = false /\
   storeFails w (S (storeSeq w)) = true) ->
  let run := settleBet bet out amt w in
  result_of run = Throw StoreError /\
  table (world_of run) = table w /\
  Forall (fun c => isGatewayCall c = false) (calls_since w (world_of run)).
Proof.
  intros [Hdown | (Hfresh & Hup & Hdown)]; unfold_services; simpl.
  - rewrite Hdown. simpl. repeat split. trace_of_run. by repeat constructor.
  - rewrite Hup. simpl.
    destruct (Repository.lookupReference (referenceOf bet) (table w))
      as [e|] eqn:Hl; [rewrite (Hfresh e eq_refl)|]; simpl;
      rewrite Hdown; simpl; repeat split; trace_of_run;
      by repeat constructor.
Qed.

Lemma settleBet_store_down_before_submission_witness :
  let w := faultyWorldWith ∅ 1 in
  let run := settleBet "bet123" "WIN" 100 w in
  result_of run = Throw StoreError /\
  table (world_of run) = table w /\
  Forall (fun c => isGatewayCall c = false) (calls_since w (world_of run)).
Proof.
  apply (settleBet_store_down_before_submission
           "bet123" "WIN" 100 (faultyWorldWith ∅ 1)).
  right. split; [|split; reflexivity].
  intros e He. vm_compute in He. discriminate He.
Defined.

(** X4: when the gateway has accepted the submission and the store then
    rejects the save of the handle, the [catch] block runs: with its own
    save accepted, the record is stored as FAILED although it carries the
    handle of the submission, and [settleBet] throws the store's error. *)
Theorem settleBet_submitted_but_marked_failed bet out amt w pk :
  (forall e,
     Repository.lookupReference (referenceOf bet) (table w) = Some e ->
     status e = FAILED) ->
  gatewayLive pk w ->
  storeFails w (storeSeq w) = false ->
  storeFails w (S (storeSeq w)) = false ->
  storeFails w (S (S (storeSeq w))) = true ->
  storeFails w (S (S (S (storeSeq w)))) = false ->
  let i := fresh (dom (table w)) in
  let created := Repository.create (referenceOf bet) bet out amt PENDING in
  let submitted :=
    mkSettlement (Some i) (referenceOf bet) bet out amt PENDING
                 (Some (Soroban.mockHash (now w))) in
  let run := settleBet bet out amt w in
  result_of run = Throw StoreError /\
  table (world_of run) !! i = Some (set_status FAILED submitted) /\
  calls_since w (world_of run) =
    [RepoFindOne (referenceOf bet); RepoSave created;
     SorobanInvoke "settle" [bet; out; show_Z amt]; RpcGetAccount pk;
     RepoSave submitted; RepoSave (set_status FAILED submitted)].
Proof.
  intros Hfresh ([url Hsrv] & Hkey & Hrpc) H0 H1 H2 H3.
  unfold_services. simpl. rewrite H0. simpl.
  destruct (Repository.lookupReference (referenceOf bet) (table w))
    as [e|] eqn:Hl; [rewrite (Hfresh e eq_refl)|]; simpl;
    rewrite H1; simpl; rewrite Hsrv, Hkey, Hrpc; simpl;
    rewrite H2; simpl; rewrite H3; simpl;
    (split; [reflexivity|]; split; [apply lookup_insert_eq|];
     trace_of_run; reflexivity).
Qed.

Lemma settleBet_submitted_but_marked_failed_witness :
  let w := faultyWorldWith ∅ 2 in
  let run := settleBet "bet123" "WIN" 100 w in
  result_of run = Throw StoreError /\
  table (world_of run) !! 0
    = Some (bet123 0 FAILED (Some "mock_tx_hash_1700000000000")).
Proof.
  destruct (settleBet_submitted_but_marked_failed
              "bet123" "WIN" 100 (faultyWorldWith ∅ 2) "MOCK_PUBLIC_KEY")
    as (Hres & Hrow & _).
  - intros e He. vm_compute in He. discriminate He.
  - split; [by eexists | split; reflexivity].
  - reflexivity.
  - reflexivity.
  - reflexivity.
  - reflexivity.
  - exact (conj Hres Hrow).
Defined.

(** The run of a fresh attempt whose gateway call throws and whose [catch]
    block cannot save. *)
Lemma settleBet_unrecorded_run bet out amt w error :
  (forall e,
     Repository.lookupReference (referenceOf bet) (table w) = Some e ->
     status e = FAILED) ->
  result_of (Soroban.invokeContract "settle" [bet; out; show_Z amt] w)
    = Throw error ->
  storeFails w (storeSeq w) = false ->
  storeFails w (S (storeSeq w)) = false ->
  storeFails w (S (S (storeSeq w))) = true ->
  let i := fresh (dom (table w)) in
  let run := settleBet bet out amt w in
  result_of run = Throw StoreError /\
  table (world_of run) !! i
    = Some (mkSettlement (Some i) (referenceOf bet) bet out amt PENDING None)
  /\
  storeSeq (world_of run) = S (S (S (storeSeq w))) /\
  forall n, storeFails (world_of run) n = storeFails w n.
Proof.
  intros Hfresh Hthrow H0 H1 H2. revert Hthrow.
  unfold_services. simpl. rewrite H0. simpl.
  destruct (Repository.lookupReference (referenceOf bet) (table w))
    as [e|] eqn:Hl; [rewrite (Hfresh e eq_refl)|]; simpl;
    rewrite H1; simpl;
    destruct (server (soroban w)); simpl;
    try destruct (adminKeypair (soroban w)); simpl;
    try destruct (rpcFails w (rpcSeq w)); simpl;
    try discriminate; intros _; rewrite H2; simpl;
    (split; [reflexivity|]; split; [apply lookup_insert_eq | done]).
Qed.

(** X5: when the gateway call throws and the store then rejects the save
    of the [catch] block, the error that leaves [settleBet] is the store's,
    not the gateway's, and the record stays in the table as PENDING without
    a handle. *)
Theorem settleBet_failure_not_recorded bet out amt w error :
  (forall e,
     Repository.lookupReference (referenceOf bet) (table w) = Some e ->
     status e = FAILED) ->
  result_of (Soroban.invokeContract "settle" [bet; out; show_Z amt] w)
    = Throw error ->
  storeFails w (storeSeq w) = false ->
  storeFails w (S (storeSeq w)) = false ->
  storeFails w (S (S (storeSeq w))) = true ->
  let i := fresh (dom (table w)) in
  let run := settleBet bet out amt w in
  result_of run = Throw StoreError /\
  table (world_of run) !! i
    = Some (mkSettlement (Some i) (referenceOf bet) bet out amt PENDING None).
Proof.
  intros Hfresh Hthrow H0 H1 H2 i run.
  destruct (settleBet_unrecorded_run bet out amt w error
              Hfresh Hthrow H0 H1 H2) as (Hres & Hrow & _).
  exact (conj Hres Hrow).
Qed.

Lemma settleBet_failure_not_recorded_witness :
  let w := mkWorld ∅ (onlyAt 2) 0%nat liveSoroban always 0%nat
                   1700000000000 [] [] in
  let run := settleBet "bet123" "WIN" 100 w in
  result_of run = Throw StoreError /\
  table (world_of run) !! 0 = Some (bet123 0 PENDING None).
Proof.
  destruct (settleBet_failure_not_recorded
              "bet123" "WIN" 100
              (mkWorld ∅ (onlyAt 2) 0%nat liveSoroban always 0%nat
                       1700000000000 [] [])
              RpcError) as [Hres Hrow].
  - intros e He. vm_compute in He. discriminate He.
  - reflexivity.
  - reflexivity.
  - reflexivity.
  - reflexivity.
  - exact (conj Hres Hrow).
Defined.

(** X6: whatever the store and the gateway answer, a record that
    [settleBet] returns carries the reference of the bet and is PENDING or
    CONFIRMED: a failure is never returned, it is thrown. *)
Theorem settleBet_returns_live_record bet out amt w r :
  result_of (settleBet bet out amt w) = Ok r ->
  referenceId r = referenceOf bet /\
  (status r = PENDING \/ status r = CONFIRMED).
Proof.
  unfold_services. case_world w; simpl; intros Hr;
    try discriminate Hr; injection Hr as <-;
    try (split; [reflexivity | by left]);
    match goal with
    | H : Repository.lookupReference _ _ = Some _ |- _ =>
        destruct (lookupReference_Some _ _ _ H) as [-> _]
    end; auto.
Qed.

Lemma settleBet_returns_live_record_witness :
  referenceId (bet123 0 PENDING (Some "mock_tx_hash_1700000000000"))
    = referenceOf "bet123" /\
  (status (bet123 0 PENDING (Some "mock_tx_hash_1700000000000")) = PENDING \/
   status (bet123 0 PENDING (Some "mock_tx_hash_1700000000000")) = CONFIRMED).
Proof.
  apply (settleBet_returns_live_record "bet123" "WIN" 100 emptyWorld).
  reflexivity.
Defined.

(** X7: whatever the store and the gateway answer, every entity that a
    run of [settleBet] hands to [save] belongs to the bet of the call
    (reference, bet, outcome and amount) and is PENDING or FAILED, never
    CONFIRMED; and the run invokes the gateway at most once. *)
Theorem settleBet_saves_only_its_attempt bet out amt w :
  let cs := calls_since w (world_of (settleBet bet out amt w)) in
  (forall e, RepoSave e ∈ cs ->
     referenceId e = referenceOf bet /\ betId e = bet /\ outcome e = out /\
     amount e = amt /\ (status e = PENDING \/ status e = FAILED)) /\
  (length (List.filter isInvoke cs) <= 1)%nat.
Proof.
  unfold_services. case_world w; simpl; trace_of_run;
    (split; [|simpl; lia]);
    intros e He; split_membership He; try discriminate He;
    injection He as ->; simpl; auto 10.
Qed.

(** X8: a retry after a FAILED record is an insert, never an update of
    that record.  When the lookup is accepted and finds a FAILED record,
    then whatever the store and the gateway answer afterwards: the next call
    of [settleBet] is the [save] of a new entity without primary key that
    carries the reference of the FAILED record; no entity the run saves has
    the key of the FAILED record; and the FAILED row is in the table,
    unchanged, when the run ends.  If the store rejects that first [save]
    (as a store that keeps the reference unique would), [settleBet] throws
    the store's error without reaching the gateway. *)
Theorem settleBet_retry_is_an_insert bet out amt w e :
  storeFails w (storeSeq w) = false ->
  Repository.lookupReference (referenceOf bet) (table w) = Some e ->
  status e = FAILED ->
  let run := settleBet bet out amt w in
  let created := Repository.create (referenceOf bet) bet out amt PENDING in
  exists k old,
    entityId e = Some k /\ table w !! k = Some old /\
    referenceId old = referenceOf bet /\ status old = FAILED /\
    table (world_of run) !! k = Some old /\
    (exists rest,
       calls_since w (world_of run)
         = RepoFindOne (referenceOf bet) :: RepoSave created :: rest) /\
    entityId created = None /\ referenceId created = referenceId old /\
    (forall e', RepoSave e' ∈ calls_since w (world_of run) ->
                entityId e' <> Some k) /\
    (storeFails w (S (storeSeq w)) = true ->
       result_of run = Throw StoreError /\
       table (world_of run) = table w /\
       Forall (fun c => isGatewayCall c = false)
              (calls_since w (world_of run))).
Proof.
  intros Hs Hl Hf run created.
  destruct (lookupReference_Some _ _ _ Hl) as (Href & k & old & Hk & ->).
  simpl in Href, Hf. exists k, old.
  assert (Hne : fresh (dom (table w)) <> k).
  { intros <-. rewrite fresh_key_unused in Hk. discriminate Hk. }
  split; [reflexivity|]. split; [exact Hk|].
  split; [exact Href|]. split; [exact Hf|].
  split.
  { subst run. unfold_services. simpl. rewrite Hs. simpl. rewrite Hl.
    simpl. rewrite Hf. case_world w; simpl;
      rewrite ?lookup_insert_ne by exact Hne; exact Hk. }
  split.
  { subst run. unfold_services. simpl. rewrite Hs. simpl. rewrite Hl.
    simpl. rewrite Hf. case_world w; trace_of_run; eexists; reflexivity. }
  split; [reflexivity|]. split; [by rewrite Href|].
  split.
  { subst run. unfold_services. simpl. rewrite Hs. simpl. rewrite Hl.
    simpl. rewrite Hf. case_world w; simpl; trace_of_run;
      intros e' He'; split_membership He'; try discriminate He';
      injection He' as ->; simpl; congruence. }
  intros Hdown. subst run. unfold_services. simpl. rewrite Hs. simpl.
  rewrite Hl. simpl. rewrite Hf. simpl. rewrite Hdown. simpl.
  repeat split. trace_of_run. by repeat constructor.
Qed.

Lemma settleBet_retry_is_an_insert_witness :
  let w := faultyWorldWith {[ 0 := bet123 0 FAILED None ]} 1 in
  let run := settleBet "bet123" "WIN" 100 w in
  table (world_of run) !! 0 = Some (bet123 0 FAILED None) /\
  (exists rest,
     calls_since w (world_of run)
       = RepoFindOne "settle_bet123"
         :: RepoSave (mkSettlement None "settle_bet123" "bet123" "WIN" 100
                                   PENDING None)
         :: rest) /\
  result_of run = Throw StoreError.
Proof.
  destruct (settleBet_retry_is_an_insert
              "bet123" "WIN" 100
              (faultyWorldWith {[ 0 := bet123 0 FAILED None ]} 1)
              (bet123 0 FAILED None))
    as (k & old & Hkey & Hold & _ & _ & Hkept & Hcalls & _ & _ & _ & Hdown).
  - reflexivity.
  - reflexivity.
  - reflexivity.
  - injection Hkey as <-. vm_compute in Hold. injection Hold as <-.
    destruct (Hdown eq_refl) as (Hres & _ & _).
    exact (conj Hkept (conj Hcalls Hres)).
Defined.

(** ** [reconcile] under any behaviour of the store *)

(** The sweep over the pending rows of a table, whatever the store answers
    to the writes: a key holds afterwards what it held before or what the
    sweep writes for the pending row of that key. *)
Lemma reconcile_rows w :
  let w' := world_of (reconcile w) in
  forall i,
    table w' !! i = table w !! i \/
    exists r, table w !! i = Some r /\ status r = PENDING /\
              table w' !! i = Some (resolved (set_entityId (Some i) r)).
Proof.
  destruct (storeFails w (storeSeq w)) eqn:Hs.
  - destruct (reconcile_not_found w Hs) as (w1 & Hrun & Ht & _).
    simpl. rewrite Hrun. simpl. intros i. left. by rewrite Ht.
  - destruct (reconcile_found w Hs) as (w1 & Hrun & Ht & _).
    simpl. rewrite Hrun.
    destruct (reconcile_loop_any (Repository.withStatus PENDING (table w)) w1)
      as [_ Hrows].
    { intros e. apply withStatus_keyed. }
    intros i. destruct (Hrows i) as [Heq | (e & He & Hk & Hv)].
    + left. by rewrite Heq, Ht.
    + apply elem_of_withStatus in He as (k & r & Hk' & Hst & ->).
      simpl in Hk. injection Hk as ->. right. eauto.
Qed.

(** X9: whatever the store answers, [reconcile] creates no row, removes
    no row, leaves every row that is not PENDING exactly as it is, and
    never changes the reference, bet, outcome, amount or handle of a
    row. *)
Theorem reconcile_touches_only_pending_status w i :
  let w' := world_of (reconcile w) in
  (table w !! i = None -> table w' !! i = None) /\
  (forall r, table w !! i = Some r -> status r <> PENDING ->
             table w' !! i = Some r) /\
  (forall r, table w !! i = Some r ->
     exists r', table w' !! i = Some r' /\
                referenceId r' = referenceId r /\ betId r' = betId r /\
                outcome r' = outcome r /\ amount r' = amount r /\
                txHash r' = txHash r).
Proof.
  intros w'. destruct (reconcile_rows w i) as [Heq | (r & Hi & Hp & Hv)];
    fold w' in Heq || fold w' in Hv.
  - rewrite Heq. repeat split; try done. intros r Hr. exists r. done.
  - rewrite Hi, Hv. split; [done|]. split.
    + intros r' [= <-] Hnp. done.
    + intros r' [= <-]. eexists. split; [reflexivity|].
      unfold resolved. by destruct (truthy _).
Qed.

(** No row is pending exactly when [find] answers the empty list. *)
Lemma withStatus_nil st (t : gmap N Settlement) :
  (forall i r, t !! i = Some r -> status r <> st) ->
  Repository.withStatus st t = [].
Proof.
  intros Hnone. apply elem_of_nil_inv. intros e He.
  apply elem_of_withStatus in He as (k & r & Hk & Hst & _).
  by destruct (Hnone k r Hk).
Qed.

(** X10: after a sweep whose calls the store accepted no row is PENDING, and
    a second sweep only calls [find]: it completes and leaves the table as
    it is. *)
Theorem reconcile_twice w :
  storeHealthy w ->
  let w1 := world_of (reconcile w) in
  let w2 := world_of (reconcile w1) in
  (forall i r, table w1 !! i = Some r -> status r <> PENDING) /\
  result_of (reconcile w1) = Ok tt /\
  table w2 = table w1 /\
  calls_since w1 w2 = [RepoFind PENDING].
Proof.
  intros Hw w1 w2.
  destruct (reconcile_healthy w Hw) as (_ & Hw1 & _ & Hrows).
  fold w1 in Hw1, Hrows.
  assert (Hdone : forall i r, table w1 !! i = Some r -> status r <> PENDING).
  { intros i r Hi. rewrite Hrows in Hi.
    destruct (table w !! i) as [r0|]; [|done]. simpl in Hi.
    injection Hi as <-. destruct (decide (status r0 = PENDING)); [|done].
    unfold resolved. by destruct (truthy _). }
  split; [exact Hdone|].
  destruct (reconcile_found w1 (Hw1 _)) as (w1' & Hrun & Ht & Hc & _).
  subst w2. rewrite Hrun, (withStatus_nil _ _ Hdone). simpl.
  repeat split; try done. by apply calls_since_app.
Qed.

Lemma reconcile_twice_witness :
  let w := mkWorld (<[ 1 := bet123 1 PENDING None ]>
                      {[ 0 := bet456 0 PENDING (Some "mock_tx_hash_5") ]})
                   never 0%nat liveSoroban never 0%nat 1700000000000
                   [] [] in
  let w1 := world_of (reconcile w) in
  result_of (reconcile w1) = Ok tt /\
  table (world_of (reconcile w1)) = table w1 /\
  calls_since w1 (world_of (reconcile w1)) = [RepoFind PENDING].
Proof.
  destruct (reconcile_twice
              (mkWorld (<[ 1 := bet123 1 PENDING None ]>
                          {[ 0 := bet456 0 PENDING (Some "mock_tx_hash_5") ]})
                       never 0%nat liveSoroban never 0%nat 1700000000000
                       [] []))
    as (_ & Hres & Ht & Hc).
  - intros n. reflexivity.
  - exact (conj Hres (conj Ht Hc)).
Defined.

(** The loop leaves with an error only through the write of a record
    without a handle, and the error is the store's. *)
Lemma reconcile_loop_throws l : forall w error,
  result_of (reconcile_loop l w) = Throw error ->
  error = StoreError /\ exists e, e ∈ l /\ truthy (txHash e) = false.
Proof.
  induction l as [|e l IH]; intros w error; [discriminate|].
  destruct (truthy (txHash e)) eqn:Hh.
  - assert (Hgo : exists w1, reconcile_loop (e :: l) w = reconcile_loop l w1).
    { simpl reconcile_loop. rewrite Hh.
      unfold tryCatch, attempt, logger, bind. simpl.
      destruct (storeFails w (storeSeq w)) eqn:Hs.
      - rewrite save_rejected by exact Hs. simpl. eexists. reflexivity.
      - rewrite save_accepted by exact Hs. simpl. eexists. reflexivity. }
    destruct Hgo as [w1 ->]. intros Hthrow.
    destruct (IH w1 error Hthrow) as (-> & e' & He' & Hh').
    split; [done|]. exists e'. split; [by right | done].
  - destruct (reconcile_loop_round e l w) as (w1 & _ & _ & [-> | ->]).
    + intros Hthrow. destruct (IH w1 error Hthrow) as (-> & e' & He' & Hh').
      split; [done|]. exists e'. split; [by right | done].
    + simpl. intros [= <-]. split; [done|]. exists e. split; [by left | done].
Qed.

(** X11: [reconcile] throws nothing but the store's error, and only when
    the store rejected [find] or when some PENDING row has no handle: the
    errors of the rows with a handle are swallowed. *)
Theorem reconcile_throws_only_store_error w error :
  result_of (reconcile w) = Throw error ->
  error = StoreError /\
  (storeFails w (storeSeq w) = true \/
   exists i r, table w !! i = Some r /\ status r = PENDING /\
               truthy (txHash r) = false).
Proof.
  destruct (storeFails w (storeSeq w)) eqn:Hs.
  - destruct (reconcile_not_found w Hs) as (w1 & -> & _).
    simpl. intros [= <-]. by split; [|left].
  - destruct (reconcile_found w Hs) as (w1 & -> & _).
    intros Hthrow.
    destruct (reconcile_loop_throws _ _ _ Hthrow) as (-> & e & He & Hh).
    split; [done|]. right.
    apply elem_of_withStatus in He as (k & r & Hk & Hst & ->).
    exists k, r. done.
Qed.

Lemma reconcile_throws_only_store_error_witness :
  StoreError = StoreError /\
  (storeFails (twoRows (bet123 1 PENDING None)
                       (bet456 0 PENDING (Some "mock_tx_hash_5")) 1)
              0%nat = true \/
   exists i r,
     table (twoRows (bet123 1 PENDING None)
                    (bet456 0 PENDING (Some "mock_tx_hash_5")) 1) !! i
       = Some r /\
     status r = PENDING /\ truthy (txHash r) = false).
Proof.
  apply (reconcile_throws_only_store_error
           (twoRows (bet123 1 PENDING None)
                    (bet456 0 PENDING (Some "mock_tx_hash_5")) 1)
           StoreError).
  reflexivity.
Defined.

(** X12: when the store accepts [find] and every PENDING row has a handle,
    [reconcile] completes whatever the store answers to the writes, and
    every row is afterwards as it was or is the same row CONFIRMED. *)
Theorem reconcile_survives_rejected_writes w :
  storeFails w (storeSeq w) = false ->
  (forall i r, table w !! i = Some r -> status r = PENDING ->
               truthy (txHash r) = true) ->
  let w' := world_of (reconcile w) in
  result_of (reconcile w) = Ok tt /\
  forall i r, table w !! i = Some r ->
    table w' !! i = Some r \/
    table w' !! i = Some (set_status CONFIRMED (set_entityId (Some i) r)).
Proof.
  intros Hs Hall w'. split.
  - destruct (reconcile_found w Hs) as (w1 & Hrun & _).
    rewrite Hrun.
    destruct (result_of (reconcile_loop
                           (Repository.withStatus PENDING (table w)) w1))
      as [[]|error] eqn:Hres; [done|].
    destruct (reconcile_loop_throws _ _ _ Hres) as (_ & e & He & Hh).
    apply elem_of_withStatus in He as (k & r & Hk & Hst & ->).
    simpl in Hh. rewrite (Hall k r Hk Hst) in Hh. discriminate Hh.
  - intros i r Hi. destruct (reconcile_any w) as [_ Hrows].
    destruct (Hrows i r Hi) as [Heq | [Hp Heq]]; [by left|].
    right. subst w'. rewrite Heq. unfold resolved. simpl.
    by rewrite (Hall i r Hi Hp).
Qed.

Lemma reconcile_survives_rejected_writes_witness :
  let w := twoRows (bet123 1 PENDING (Some "mock_tx_hash_4"))
                   (bet456 0 PENDING (Some "mock_tx_hash_5")) 1 in
  result_of (reconcile w) = Ok tt.
Proof.
  destruct (reconcile_survives_rejected_writes
              (twoRows (bet123 1 PENDING (Some "mock_tx_hash_4"))
                       (bet456 0 PENDING (Some "mock_tx_hash_5")) 1))
    as [Hres _].
  - reflexivity.
  - intros i r Hi Hp.
    destruct (decide (i = 1)) as [->|H1].
    + vm_compute in Hi. injection Hi as <-. reflexivity.
    + destruct (decide (i = 0)) as [->|H0].
      * vm_compute in Hi. injection Hi as <-. reflexivity.
      * unfold twoRows in Hi. cbn [table] in Hi.
        rewrite lookup_insert_ne, lookup_singleton_ne in Hi by done.
        discriminate Hi.
  - exact Hres.
Defined.

(** X13: a sweep that follows a first, successful call of [settleBet]
    confirms the record of that call: with a store and a gateway that
    answer, the record found for the reference afterwards is the one the
    call returned, now CONFIRMED, and the sweep has not invoked the
    gateway. *)
Theorem settle_then_sweep_confirms bet out amt w pk :
  storeHealthy w -> gatewayLive pk w ->
  Repository.lookupReference (referenceOf bet) (table w) = None ->
  let first :=
    mkSettlement (Some (fresh (dom (table w)))) (referenceOf bet) bet out amt
                 PENDING (Some (Soroban.mockHash (now w))) in
  let w1 := world_of (settleBet bet out amt w) in
  let w2 := world_of (reconcile w1) in
  result_of (settleBet bet out amt w) = Ok first /\
  result_of (reconcile w1) = Ok tt /\
  Repository.lookupReference (referenceOf bet) (table w2)
    = Some (set_status CONFIRMED first) /\
  List.filter isInvoke (calls_since w1 w2) = [].
Proof.
  intros Hs Hgw Hnone first w1 w2.
  destruct (settleBet_attempt bet out amt w pk Hs Hgw)
    as (Hres & _ & _ & Hs1).
  { intros e He. congruence. }
  destruct (reconcile_healthy _ Hs1) as (Hres2 & _ & _ & _).
  destruct (sweep_after_first_call bet out amt w pk Hs Hgw Hnone)
    as (_ & Hl & between & Hc & Hquiet).
  split; [exact Hres|]. split; [exact Hres2|]. split; [exact Hl|].
  subst w1 w2. rewrite (calls_since_app _ _ _ Hc). exact Hquiet.
Qed.

Lemma settle_then_sweep_confirms_witness :
  let w1 := world_of (settleBet "bet123" "WIN" 100 emptyWorld) in
  let w2 := world_of (reconcile w1) in
  result_of (reconcile w1) = Ok tt /\
  Repository.lookupReference "settle_bet123" (table w2)
    = Some (bet123 0 CONFIRMED (Some "mock_tx_hash_1700000000000")).
Proof.
  destruct (settle_then_sweep_confirms
              "bet123" "WIN" 100 emptyWorld "MOCK_PUBLIC_KEY")
    as (_ & Hres & Hl & _).
  - intros n. reflexivity.
  - split; [by eexists | split; reflexivity].
  - reflexivity.
  - exact (conj Hres Hl).
Defined.

(** The sweep with a store that accepts every call from now on. *)
Lemma reconcile_loop_accepting l : forall w,
  (forall n, (storeSeq w <= n)%nat -> storeFails w n = false) ->
  exists w',
    reconcile_loop l w = (Ok tt, w') /\
    table w' = swept (table w) l.
Proof.
  induction l as [|e l IH]; intros w Hw.
  - exists w. done.
  - destruct (reconcile_loop_accepted e l w (Hw _ (Nat.le_refl _)))
      as (w1 & -> & Ht1 & _ & Hf1 & Hq1).
    destruct (IH w1) as (w' & -> & Ht).
    { intros n Hn. rewrite Hf1. apply Hw. lia. }
    exists w'. by rewrite Ht, Ht1.
Qed.

Lemma reconcile_accepting w :
  (forall n, (storeSeq w <= n)%nat -> storeFails w n = false) ->
  let w' := world_of (reconcile w) in
  result_of (reconcile w) = Ok tt /\
  forall i r, table w !! i = Some r -> status r = PENDING ->
    table w' !! i = Some (resolved (set_entityId (Some i) r)).
Proof.
  intros Hw.
  assert (Hfind : storeFails w (storeSeq w) = false)
    by (apply Hw; apply Nat.le_refl).
  unfold reconcile, Repository.find, Repository.roundTrip, logger, bind.
  simpl. rewrite Hfind. simpl.
  match goal with |- context [reconcile_loop ?l ?w1] =>
    destruct (reconcile_loop_accepting l w1) as (w' & -> & Ht) end.
  { simpl. intros n Hn. apply Hw. lia. }
  split; [done|]. intros i r Hi Hp. simpl. rewrite Ht. simpl.
  apply swept_lookup_in.
  - apply withStatus_keys_NoDup.
  - intros e. apply withStatus_keyed.
  - apply elem_of_withStatus. eauto.
  - done.
Qed.

(** X14: a failure that could not be recorded is closed by the next sweep.
    When the gateway call of a fresh attempt throws and the store rejects
    the save of the [catch] block, the record is left PENDING without a
    handle; if the store accepts the calls that follow, [reconcile]
    completes and stores that record as FAILED. *)
Theorem sweep_closes_unrecorded_failure bet out amt w error :
  (forall e,
     Repository.lookupReference (referenceOf bet) (table w) = Some e ->
     status e = FAILED) ->
  result_of (Soroban.invokeContract "settle" [bet; out; show_Z amt] w)
    = Throw error ->
  storeFails w (storeSeq w) = false ->
  storeFails w (S (storeSeq w)) = false ->
  storeFails w (S (S (storeSeq w))) = true ->
  (forall n, (S (S (storeSeq w)) < n)%nat -> storeFails w n = false) ->
  let i := fresh (dom (table w)) in
  let w1 := world_of (settleBet bet out amt w) in
  let w2 := world_of (reconcile w1) in
  table w1 !! i
    = Some (mkSettlement (Some i) (referenceOf bet) bet out amt PENDING None)
  /\
  result_of (reconcile w1) = Ok tt /\
  table w2 !! i
    = Some (mkSettlement (Some i) (referenceOf bet) bet out amt FAILED None).
Proof.
  intros Hfresh Hthrow H0 H1 H2 Hlater i w1 w2.
  destruct (settleBet_unrecorded_run bet out amt w error
              Hfresh Hthrow H0 H1 H2) as (_ & Hrow & Hseq & Hsame).
  fold i in Hrow. fold w1 in Hrow, Hseq, Hsame.
  destruct (reconcile_accepting w1) as [Hres Hrows].
  { intros n Hn. rewrite Hsame. apply Hlater. lia. }
  split; [exact Hrow|]. split; [exact Hres|].
  subst w2. rewrite (Hrows i _ Hrow eq_refl). reflexivity.
Qed.

Lemma sweep_closes_unrecorded_failure_witness :
  let w := mkWorld ∅ (onlyAt 2) 0%nat liveSoroban always 0%nat
                   1700000000000 [] [] in
  let w1 := world_of (settleBet "bet123" "WIN" 100 w) in
  let w2 := world_of (reconcile w1) in
  table w1 !! 0 = Some (bet123 0 PENDING None) /\
  result_of (reconcile w1) = Ok tt /\
  table w2 !! 0 = Some (bet123 0 FAILED None).
Proof.
  destruct (sweep_closes_unrecorded_failure
              "bet123" "WIN" 100
              (mkWorld ∅ (onlyAt 2) 0%nat liveSoroban always 0%nat
                       1700000000000 [] [])
              RpcError) as (Hrow & Hres & Hrow2).
  - intros e He. vm_compute in He. discriminate He.
  - reflexivity.
  - reflexivity.
  - reflexivity.
  - reflexivity.
  - intros n Hn. unfold onlyAt. simpl.
    apply Nat.eqb_neq. simpl in Hn. lia.
  - exact (conj Hrow (conj Hres Hrow2)).
Defined.

(** ** The Soroban client *)

(** X15: [invokeContract] returns exactly when the client is initialised
    and the account lookup resolves, and then returns the mock handle of the
    current time; otherwise it throws the error of the lookup: the RPC
    server's after the one call [getAccount], or a type error, before any
    RPC call, when the server or the key pair is undefined.  In every case
    the settlement table is left as it is. *)
Theorem invokeContract_outcome functionName args w :
  let run := Soroban.invokeContract functionName args w in
  table (world_of run) = table w /\
  match result_of run with
  | Ok hash =>
      hash = Soroban.mockHash (now w) /\
      exists pk, gatewayLive pk w /\
        calls_since w (world_of run)
          = [SorobanInvoke functionName args; RpcGetAccount pk]
  | Throw RpcError =>
      rpcFails w (rpcSeq w) = true /\
      exists pk, adminKeypair (soroban w) = Some pk /\
        calls_since w (world_of run)
          = [SorobanInvoke functionName args; RpcGetAccount pk]
  | Throw (TypeError _) =>
      (server (soroban w) = None \/ adminKeypair (soroban w) = None) /\
      calls_since w (world_of run) = [SorobanInvoke functionName args]
  | Throw StoreError => False
  end.
Proof.
  unfold gatewayLive. unfold_services.
  destruct (server (soroban w)) as [url|] eqn:Hsrv;
    [destruct (adminKeypair (soroban w)) as [pk|] eqn:Hkey;
     [destruct (rpcFails w (rpcSeq w)) eqn:Hrpc|] |];
    simpl; rewrite ?Hsrv, ?Hkey, ?Hrpc; simpl;
    (split; [reflexivity|]); trace_of_run.
  - split; [reflexivity|]. exists pk. done.
  - split; [reflexivity|]. exists pk. repeat split; done.
  - split; [by right | done].
  - split; [by left | done].
Qed.

(** The outcome of [invokeContract] depends on neither the function name
    nor the arguments. *)
Lemma invokeContract_ignores_arguments f1 args1 f2 args2 w :
  result_of (Soroban.invokeContract f1 args1 w)
    = result_of (Soroban.invokeContract f2 args2 w).
Proof.
  unfold_services. simpl.
  destruct (server (soroban w)); simpl; [|done].
  destruct (adminKeypair (soroban w)); simpl; [|done].
  by destruct (rpcFails w (rpcSeq w)).
Qed.

Ltac unfold_init :=
  unfold onModuleInit, initializeClient, assign, liftResult,
    Soroban.thisContractId, logger, bind, result_of, world_of.

(** X16: when the URL of the RPC server, the contract id or the admin
    secret is missing or empty in the configuration, [onModuleInit] only
    logs a warning: it completes, calls no constructor and no service, and
    leaves [server] and [adminKeypair] as they were.  On a service object
    that was just constructed every later [invokeContract] then throws a
    type error without any RPC call. *)
Theorem onModuleInit_incomplete_configuration sdk config w :
  truthy (config "blockchain.stellar.rpcUrl") = false \/
  truthy (config "blockchain.soroban.contractId") = false \/
  truthy (config "blockchain.soroban.adminSecret") = false ->
  let w' := world_of (onModuleInit sdk config w) in
  result_of (onModuleInit sdk config w) = Ok tt /\
  server (soroban w') = server (soroban w) /\
  adminKeypair (soroban w') = adminKeypair (soroban w) /\
  calls w' = calls w /\ table w' = table w /\
  logs w' = logs w ++
    [mkLogLine WARN
       "Soroban configuration missing. Service will not function correctly."]
  /\
  (server (soroban w) = None ->
   forall functionName args,
     let run := Soroban.invokeContract functionName args w' in
     (exists msg, result_of run = Throw (TypeError msg)) /\
     calls_since w' (world_of run) = [SorobanInvoke functionName args]).
Proof.
  intros Hmissing. unfold_init. simpl.
  destruct (config "blockchain.stellar.rpcUrl") as [[|a1 s1]|];
    destruct (config "blockchain.soroban.contractId") as [[|a2 s2]|];
    destruct (config "blockchain.soroban.adminSecret") as [[|a3 s3]|];
    simpl in *;
    try (destruct Hmissing as [H|[H|H]]; discriminate H);
    (repeat split; try reflexivity;
     [ unfold_services; simpl;
       match goal with H : server _ = None |- _ => rewrite H end;
       simpl; by eexists
     | unfold_services; simpl;
       match goal with H : server _ = None |- _ => rewrite H end;
       simpl; trace_of_run; reflexivity ]).
Qed.

Lemma onModuleInit_incomplete_configuration_witness :
  let w' := world_of (onModuleInit plainSdk noConfig bootWorld) in
  result_of (onModuleInit plainSdk noConfig bootWorld) = Ok tt /\
  server (soroban w') = None /\
  (exists msg,
     result_of (Soroban.invokeContract "settle" [] w')
       = Throw (TypeError msg)).
Proof.
  destruct (onModuleInit_incomplete_configuration
              plainSdk noConfig bootWorld)
    as (Hres & Hsrv & _ & _ & _ & _ & Hlater).
  - left. reflexivity.
  - destruct (Hlater eq_refl "settle" []) as [Hthrow _].
    exact (conj Hres (conj Hsrv Hthrow)).
Defined.

(** X17: with the URL, the contract id and the admin secret configured and
    both constructors answering, [onModuleInit] completes with the server,
    the key pair, the contract id and the network passphrase (empty when
    not configured) set, without any RPC call; every later [invokeContract]
    whose account lookup resolves returns a string that starts with
    ["mock_tx_hash_"]. *)
Theorem onModuleInit_then_invokeContract sdk config w srv pk :
  truthy (config "blockchain.stellar.rpcUrl") = true ->
  truthy (config "blockchain.soroban.contractId") = true ->
  truthy (config "blockchain.soroban.adminSecret") = true ->
  newServer sdk (orEmpty (config "blockchain.stellar.rpcUrl")) = Ok srv ->
  fromSecret sdk (orEmpty (config "blockchain.soroban.adminSecret"))
    = Ok pk ->
  let w' := world_of (onModuleInit sdk config w) in
  result_of (onModuleInit sdk config w) = Ok tt /\
  soroban w' =
    mkSoroban (Some srv)
              (orEmpty (config "blockchain.stellar.networkPassphrase"))
              (orEmpty (config "blockchain.soroban.contractId"))
              (Some pk) /\
  calls w' = calls w /\ table w' = table w /\
  (rpcFails w (rpcSeq w) = false ->
   forall functionName args,
     let run := Soroban.invokeContract functionName args w' in
     result_of run = Ok ("mock_tx_hash_" +:+ show_N (now w)) /\
     calls_since w' (world_of run)
       = [SorobanInvoke functionName args; RpcGetAccount pk]).
Proof.
  intros Hurl Hcid Hsecret Hsrv Hpk. unfold_init. simpl.
  destruct (config "blockchain.stellar.rpcUrl") as [[|a1 s1]|];
    try discriminate Hurl;
    destruct (config "blockchain.soroban.contractId") as [[|a2 s2]|];
    try discriminate Hcid;
    destruct (config "blockchain.soroban.adminSecret") as [[|a3 s3]|];
    try discriminate Hsecret.
  simpl in *. rewrite Hsrv. simpl. rewrite Hpk. simpl.
  repeat split; try reflexivity.
  - unfold_services. simpl. match goal with H : rpcFails _ _ = false |- _ =>
      rewrite H end. reflexivity.
  - unfold_services. simpl. match goal with H : rpcFails _ _ = false |- _ =>
      rewrite H end. simpl. trace_of_run. reflexivity.
Qed.

Lemma onModuleInit_then_invokeContract_witness :
  let w' := world_of (onModuleInit plainSdk testConfig bootWorld) in
  soroban w' = mkSoroban (Some "https://mock-rpc") "secret" "C_MOCK"
                         (Some "PUB_S_SECRET") /\
  result_of (Soroban.invokeContract "settle" ["betId"; "outcome"; "100"] w')
    = Ok "mock_tx_hash_1700000000000".
Proof.
  destruct (onModuleInit_then_invokeContract
              plainSdk testConfig bootWorld "https://mock-rpc" "PUB_S_SECRET")
    as (_ & Hthis & _ & _ & Hlater).
  - reflexivity.
  - reflexivity.
  - reflexivity.
  - reflexivity.
  - reflexivity.
  - destruct (Hlater eq_refl "settle" ["betId"; "outcome"; "100"])
      as [Hres _].
    exact (conj Hthis Hres).
Defined.

(** X18: when the configuration is complete and [Keypair.fromSecret]
    throws, [onModuleInit] throws that error after the server was set and
    before the key pair is: on a service object that was just constructed
    the client is left half initialised, and every later [invokeContract]
    throws a type error without any RPC call. *)
Theorem onModuleInit_invalid_secret sdk config w srv error :
  truthy (config "blockchain.stellar.rpcUrl") = true ->
  truthy (config "blockchain.soroban.contractId") = true ->
  truthy (config "blockchain.soroban.adminSecret") = true ->
  newServer sdk (orEmpty (config "blockchain.stellar.rpcUrl")) = Ok srv ->
  fromSecret sdk (orEmpty (config "blockchain.soroban.adminSecret"))
    = Throw error ->
  adminKeypair (soroban w) = None ->
  let w' := world_of (onModuleInit sdk config w) in
  result_of (onModuleInit sdk config w) = Throw error /\
  server (soroban w') = Some srv /\
  adminKeypair (soroban w') = None /\
  forall functionName args,
    let run := Soroban.invokeContract functionName args w' in
    result_of run
      = Throw (TypeError
                 "Cannot read properties of undefined (reading 'publicKey')")
    /\ calls_since w' (world_of run) = [SorobanInvoke functionName args].
Proof.
  intros Hurl Hcid Hsecret Hsrv Hpk Hnone. unfold_init. simpl.
  destruct (config "blockchain.stellar.rpcUrl") as [[|a1 s1]|];
    try discriminate Hurl;
    destruct (config "blockchain.soroban.contractId") as [[|a2 s2]|];
    try discriminate Hcid;
    destruct (config "blockchain.soroban.adminSecret") as [[|a3 s3]|];
    try discriminate Hsecret.
  simpl in *. rewrite Hsrv. simpl. rewrite Hpk. simpl.
  repeat split; try done.
  - unfold_services. simpl. rewrite Hnone. reflexivity.
  - unfold_services. simpl. rewrite Hnone. simpl. trace_of_run. reflexivity.
Qed.

Lemma onModuleInit_invalid_secret_witness :
  let sdk := mkSdk (fun url => Ok url)
                   (fun _ => Throw (TypeError "invalid encoded string")) in
  let w' := world_of (onModuleInit sdk testConfig bootWorld) in
  result_of (onModuleInit sdk testConfig bootWorld)
    = Throw (TypeError "invalid encoded string") /\
  server (soroban w') = Some "https://mock-rpc" /\
  adminKeypair (soroban w') = None.
Proof.
  destruct (onModuleInit_invalid_secret
              (mkSdk (fun url => Ok url)
                     (fun _ => Throw (TypeError "invalid encoded string")))
              testConfig bootWorld "https://mock-rpc"
              (TypeError "invalid encoded string"))
    as (Hres & Hsrv & Hkey & _).
  - reflexivity.
  - reflexivity.
  - reflexivity.
  - reflexivity.
  - reflexivity.
  - reflexivity.
  - exact (conj Hres (conj Hsrv Hkey)).
Defined.

(** X19: end to end without configuration: after [onModuleInit] found
    the configuration incomplete on a service object that was just
    constructed, a fresh [settleBet] (store accepting the calls) throws a
    type error, makes no RPC call at all, and leaves the record of the
    attempt in the table as FAILED. *)
Theorem settleBet_on_unconfigured_client sdk config bet out amt w :
  truthy (config "blockchain.stellar.rpcUrl") = false \/
  truthy (config "blockchain.soroban.contractId") = false \/
  truthy (config "blockchain.soroban.adminSecret") = false ->
  server (soroban w) = None ->
  storeHealthy w ->
  Repository.lookupReference (referenceOf bet) (table w) = None ->
  let i := fresh (dom (table w)) in
  let w1 := world_of (onModuleInit sdk config w) in
  let run := settleBet bet out amt w1 in
  (exists msg, result_of run = Throw (TypeError msg)) /\
  table (world_of run) !! i
    = Some (mkSettlement (Some i) (referenceOf bet) bet out amt FAILED None)
  /\
  calls_since w1 (world_of run) =
    [RepoFindOne (referenceOf bet);
     RepoSave (Repository.create (referenceOf bet) bet out amt PENDING);
     SorobanInvoke "settle" [bet; out; show_Z amt];
     RepoSave (mkSettlement (Some i) (referenceOf bet) bet out amt FAILED
                            None)].
Proof.
  intros Hmissing Hsrv Hs Hnone. unfold_init. simpl.
  destruct (config "blockchain.stellar.rpcUrl") as [[|a1 s1]|];
    destruct (config "blockchain.soroban.contractId") as [[|a2 s2]|];
    destruct (config "blockchain.soroban.adminSecret") as [[|a3 s3]|];
    simpl in *;
    try (destruct Hmissing as [H|[H|H]]; discriminate H);
    unfold_services; simpl; rewrite !Hs; simpl; rewrite Hnone; simpl;
    rewrite !Hs; simpl; rewrite Hsrv; simpl; rewrite !Hs; simpl;
    (split; [by eexists|]; split; [apply lookup_insert_eq|];
     trace_of_run; reflexivity).
Qed.

Lemma settleBet_on_unconfigured_client_witness :
  let w1 := world_of (onModuleInit plainSdk noConfig bootWorld) in
  let run := settleBet "bet123" "WIN" 100 w1 in
  (exists msg, result_of run = Throw (TypeError msg)) /\
  table (world_of run) !! 0 = Some (bet123 0 FAILED None).
Proof.
  destruct (settleBet_on_unconfigured_client
              plainSdk noConfig "bet123" "WIN" 100 bootWorld)
    as (Hres & Hrow & _).
  - left. reflexivity.
  - reflexivity.
  - intros n. reflexivity.
  - reflexivity.
  - exact (conj Hres Hrow).
Defined.

(** ** Leaderboard rows over event sequences *)

Section LeaderboardSequences.

Import Leaderboard.

Lemma replay_app evs more rowsByUser :
  replay (evs ++ more) rowsByUser = replay more (replay evs rowsByUser).
Proof. unfold replay. apply foldl_app. Qed.

Lemma apply_lookup rowsByUser ev user :
  apply rowsByUser ev !! user =
  if decide (userOf ev = user)
  then Some (applyTo ev (default zeroed (rowsByUser !! user)))
  else rowsByUser !! user.
Proof.
  unfold apply. destruct (decide (userOf ev = user)) as [<-|Hne].
  - by rewrite lookup_insert_eq.
  - by rewrite lookup_insert_ne.
Qed.

Lemma applyTo_highest ev s :
  (highestWinningStreak s <= highestWinningStreak (applyTo ev s))%N.
Proof.
  destruct ev as [| ? ? ? [] ? ? ? | |]; simpl; lia.
Qed.

Lemma replay_highest more : forall rowsByUser user,
  (highestWinningStreak (default zeroed (rowsByUser !! user))
   <= highestWinningStreak
        (default zeroed (replay more rowsByUser !! user)))%N.
Proof.
  induction more as [|ev more IH]; intros rowsByUser user; [done|].
  unfold replay. simpl. fold (replay more (apply rowsByUser ev)).
  etransitivity; [|apply IH].
  rewrite apply_lookup. destruct (decide (userOf ev = user)); [|done].
  simpl. apply applyTo_highest.
Qed.

End LeaderboardSequences.

(** X20: after every sequence of events, the row of every user has no more
    wins than settled bets and an accuracy between 0 and 100 percent (the
    accuracy is held in hundredths of a percent). *)
Theorem leaderboard_accuracy_is_a_percentage (evs : list Leaderboard.Event)
  (user : string) :
  let row :=
    default Leaderboard.zeroed (Leaderboard.replay evs ∅ !! user) in
  (Leaderboard.betsWon row <= Leaderboard.totalBets row)%N /\
  (0 <= Leaderboard.bettingAccuracy row <= 10000)%Z.
Proof.
  intros row.
  assert (Hrow : Leaderboard.consistent row).
  { subst row.
    destruct (Leaderboard.replay evs ∅ !! user) as [s|] eqn:Hs; simpl.
    - eapply (replay_consistent evs ∅); [|exact Hs]. apply map_Forall_empty.
    - apply zeroed_consistent. }
  destruct Hrow as (Htot & Hacc & _).
  assert (Hle : (Leaderboard.betsWon row <= Leaderboard.totalBets row)%N)
    by lia.
  split; [exact Hle|]. rewrite Hacc. by apply accuracyOf_range.
Qed.

(** X21: the streak rules over a sequence: the highest winning streak of a
    user never decreases as further events arrive, and right after a lost
    bet of the user the current streak is 0 while the highest streak is
    what it was before that bet. *)
Theorem leaderboard_streak_rules (evs more : list Leaderboard.Event)
  (user bet matchRef : string) (stakeAmount winningsAmount : Z) (ts : N) :
  let rowAfter l :=
    default Leaderboard.zeroed (Leaderboard.replay l ∅ !! user) in
  let loss :=
    Leaderboard.BetSettled user bet matchRef false stakeAmount
                           winningsAmount ts in
  (Leaderboard.highestWinningStreak (rowAfter evs)
   <= Leaderboard.highestWinningStreak (rowAfter (evs ++ more)))%N /\
  Leaderboard.winningStreak (rowAfter (evs ++ [loss])) = 0%N /\
  Leaderboard.highestWinningStreak (rowAfter (evs ++ [loss]))
    = Leaderboard.highestWinningStreak (rowAfter evs).
Proof.
  intros rowAfter loss. subst rowAfter. simpl. split.
  - rewrite replay_app. apply replay_highest.
  - rewrite replay_app. unfold Leaderboard.replay at 1 3. simpl.
    rewrite apply_lookup. simpl.
    destruct (decide (user = user)); [|done]. simpl. done.
Qed.

(** ** Calls of [settleBet] in sequence *)

Lemma referenceOf_inj bet bet' : referenceOf bet = referenceOf bet' -> bet = bet'.
Proof. unfold referenceOf. simpl. intros H. by simplify_eq. Qed.

(** Every row in the table after [settleBet] was there before or carries
    the reference of the bet. *)
Lemma settleBet_new_rows bet out amt w k r :
  table (world_of (settleBet bet out amt w)) !! k = Some r ->
  table w !! k = Some r \/ referenceId r = referenceOf bet.
Proof.
  unfold_services. case_world w; simpl; intros Hk;
    repeat (rewrite lookup_insert in Hk;
            destruct (decide (fresh (dom (table w)) = k));
            [injection Hk as <-; right; reflexivity|]);
    by left.
Qed.

(** X22: bets do not interfere: whatever the store and the gateway answer,
    settling one bet never creates a record for the reference of another
    bet. *)
Theorem settleBet_leaves_other_bets_unsettled bet bet' out amt w :
  bet <> bet' ->
  Repository.lookupReference (referenceOf bet') (table w) = None ->
  Repository.lookupReference (referenceOf bet')
    (table (world_of (settleBet bet out amt w))) = None.
Proof.
  intros Hne Hnone. rewrite lookupReference_None in Hnone.
  apply lookupReference_None. intros k r Hk Href.
  destruct (settleBet_new_rows bet out amt w k r Hk) as [Hold | Hnew].
  - by destruct (Hnone k r Hold).
  - apply Hne, referenceOf_inj. congruence.
Qed.

Lemma settleBet_leaves_other_bets_unsettled_witness :
  Repository.lookupReference (referenceOf "bet456")
    (table (world_of (settleBet "bet123" "WIN" 100 emptyWorld))) = None.
Proof.
  apply (settleBet_leaves_other_bets_unsettled
           "bet123" "bet456" "WIN" 100 emptyWorld).
  - discriminate.
  - reflexivity.
Defined.

(** X23: no double submission: when a first call of [settleBet] for a bet
    without record has succeeded (store and gateway answering) and the same
    bet is settled again before any sweep, the second call finds the
    PENDING record of the first, returns it as it is and makes no gateway
    call; over both calls the gateway was invoked once. *)
Theorem settleBet_twice_while_pending bet out amt out' amt' w pk :
  storeHealthy w -> gatewayLive pk w ->
  Repository.lookupReference (referenceOf bet) (table w) = None ->
  let first :=
    mkSettlement (Some (fresh (dom (table w)))) (referenceOf bet) bet out amt
                 PENDING (Some (Soroban.mockHash (now w))) in
  let w1 := world_of (settleBet bet out amt w) in
  let run2 := settleBet bet out' amt' w1 in
  result_of (settleBet bet out amt w) = Ok first /\
  result_of run2 = Ok first /\
  table (world_of run2) = table w1 /\
  calls_since w1 (world_of run2) = [RepoFindOne (referenceOf bet)] /\
  List.filter isInvoke (calls_since w (world_of run2))
    = [SorobanInvoke "settle" [bet; out; show_Z amt]].
Proof.
  intros Hs Hgw Hnone first w1 run2.
  destruct (settleBet_attempt bet out amt w pk Hs Hgw)
    as (Hres & Ht & Hc & Hs1).
  { intros e He. congruence. }
  fold w1 in Ht, Hc, Hs1. set (i := fresh (dom (table w))) in *.
  assert (Hl : Repository.lookupReference (referenceOf bet) (table w1)
               = Some first).
  { assert (Hrow : table w1 !! i = Some first)
      by (rewrite Ht; apply lookup_insert_eq).
    rewrite (lookupReference_unique _ _ i _ Hrow); [done|done|].
    intros k' r' Hk' Href'.
    destruct (decide (k' = i)) as [->|Hne]; [done|].
    rewrite Ht, lookup_insert_ne in Hk' by done.
    rewrite lookupReference_None in Hnone. by destruct (Hnone _ _ Hk'). }
  destruct (settleBet_existing bet out' amt' w1 first (Hs1 _) Hl)
    as (Hres2 & Ht2 & Hc2); [discriminate|].
  fold run2 in Hres2, Ht2, Hc2.
  split; [exact Hres|]. split; [exact Hres2|]. split; [exact Ht2|].
  split; [by apply calls_since_app|].
  erewrite calls_since_app; [|rewrite Hc2, Hc, <- app_assoc; reflexivity].
  reflexivity.
Qed.

Lemma settleBet_twice_while_pending_witness :
  let w1 := world_of (settleBet "bet123" "WIN" 100 emptyWorld) in
  let run2 := settleBet "bet123" "WIN" 100 w1 in
  result_of run2
    = Ok (bet123 0 PENDING (Some "mock_tx_hash_1700000000000")) /\
  List.filter isInvoke (calls_since emptyWorld (world_of run2))
    = [SorobanInvoke "settle" ["bet123"; "WIN"; "100"]].
Proof.
  destruct (settleBet_twice_while_pending
              "bet123" "WIN" 100 "WIN" 100 emptyWorld "MOCK_PUBLIC_KEY")
    as (_ & Hres & _ & _ & Hone).
  - intros n. reflexivity.
  - split; [by eexists | split; reflexivity].
  - reflexivity.
  - exact (conj Hres Hone).
Defined.
